(** * CustomTokenizer: a shallow embedding of [src/lib/tokenizer.js]

  The JavaScript class [CustomTokenizer] is embedded as a record of its
  four fields together with one Rocq function per method.

  Modelling conventions.
  - A JavaScript string is the list of its code points ([list N]); the
    strings are taken to be well formed (no lone surrogates), so that
    iterating a string ([for ... of], [Array.from], [new Set]) yields
    exactly the elements of the list and literal matching by code unit
    and by code point agree.
  - The [Map]s [vocab], [specialTokens] and [decoder] are finite maps
    ([gmap]); only their lookups and their [size] are observed.  The
    pair-count table of [getPairs] is iterated by [getBestPair], so it
    keeps the insertion order of a JavaScript [Map]: it is an
    association list whose [set] updates in place or appends.
  - Numbers are integers ([Z]).
  - A method that can raise returns an [outcome]. *)

From Stdlib Require Import ZArith NArith List Ascii String Lia.
From stdpp Require Import base numbers list countable gmap.
Import ListNotations.

Abbreviation jsstring := (list N).

(** ** JavaScript primitives used by the tokenizer *)

Module JS.

(** A string literal of the source, as code points. *)
Definition str (s : string) : jsstring :=
  List.map N_of_ascii (list_ascii_of_string s).

Fixpoint is_prefix (p s : jsstring) : bool :=
  match p, s with
  | [], _ => true
  | a :: p', b :: s' => (a =? b)%N && is_prefix p' s'
  | _ :: _, [] => false
  end.

(** [\s] of a JavaScript regular expression, which is also what
    [String.prototype.trim] strips: WhiteSpace and LineTerminator. *)
Definition is_space (c : N) : bool :=
  ((9 <=? c) && (c <=? 13) || (c =? 32) || (c =? 160) || (c =? 5760)
   || (8192 <=? c) && (c <=? 8202) || (c =? 8232) || (c =? 8233)
   || (c =? 8239) || (c =? 8287) || (c =? 12288) || (c =? 65279))%N.

(** [s.replace(/\s+/g, ' ')]: every maximal run of white space becomes
    one space.  [in_run] tells that the previous character was white
    space, whose run has already been replaced. *)
Fixpoint collapse_spaces (in_run : bool) (s : jsstring) : jsstring :=
  match s with
  | [] => []
  | c :: r =>
      if is_space c
      then (if in_run then collapse_spaces true r
            else 32%N :: collapse_spaces true r)
      else c :: collapse_spaces false r
  end.

Fixpoint drop_spaces (s : jsstring) : jsstring :=
  match s with
  | [] => []
  | c :: r => if is_space c then drop_spaces r else s
  end.

(** [s.trim()] *)
Definition trim (s : jsstring) : jsstring :=
  rev (drop_spaces (rev (drop_spaces s))).

(** [s.split(sep)] for a non-empty separator [sep]: the pieces between
    the occurrences of [sep], found left to right without overlap.
    [cur] is the piece being read, reversed; [skip] counts the
    characters of a found separator that are still to be passed. *)
Fixpoint split_go (sep cur : jsstring) (skip : nat) (s : jsstring)
  : list jsstring :=
  match s with
  | [] => [rev cur]
  | c :: r =>
      match skip with
      | S k => split_go sep cur k r
      | O =>
          if is_prefix sep s
          then rev cur :: split_go sep [] (length sep - 1) r
          else split_go sep (c :: cur) 0 r
      end
  end.

Definition split (sep s : jsstring) : list jsstring :=
  split_go sep [] 0 s.

(** The replacement text of [String.prototype.replace] (GetSubstitution)
    for a regular expression without capture groups: [$$] is a dollar,
    [$&] the match, [$`] the text before the match, [$'] the text after
    it; any other dollar stands for itself. *)
Fixpoint substitution (repl matched before after : jsstring) : jsstring :=
  match repl with
  | [] => []
  | d :: r =>
      if (d =? 36)%N then
        match r with
        | x :: r' =>
            if (x =? 36)%N then 36%N :: substitution r' matched before after
            else if (x =? 38)%N
                 then matched ++ substitution r' matched before after
            else if (x =? 96)%N
                 then before ++ substitution r' matched before after
            else if (x =? 39)%N
                 then after ++ substitution r' matched before after
            else 36%N :: substitution r matched before after
        | [] => [36%N]
        end
      else d :: substitution r matched before after
  end.

(** [s.replace(re, repl)] where [re] is a global regular expression that
    matches exactly the literal text [pat].  [before] is the part of the
    subject already passed, reversed; [skip] counts the characters of
    the current match still to be passed.  An empty [pat] matches once
    at every position, the end included. *)
Fixpoint replace_go (pat repl before : jsstring) (skip : nat)
         (s : jsstring) : jsstring :=
  match s with
  | [] =>
      match pat with
      | [] => substitution repl [] (rev before) []
      | _ :: _ => []
      end
  | c :: r =>
      match skip with
      | S k => replace_go pat repl (c :: before) k r
      | O =>
          if is_prefix pat s then
            let after := drop (length pat) s in
            let out := substitution repl pat (rev before) after in
            match pat with
            | [] => out ++ c :: replace_go pat repl (c :: before) 0 r
            | _ :: _ =>
                out ++ replace_go pat repl (c :: before) (length pat - 1) r
            end
          else c :: replace_go pat repl (c :: before) 0 r
      end
  end.

Definition replace_all (pat repl s : jsstring) : jsstring :=
  replace_go pat repl [] 0 s.

(** The syntax characters of the class [[.*+?^${}()|[\]\\]]. *)
Definition is_syntax_char (c : N) : bool :=
  existsb (N.eqb c) [46; 42; 43; 63; 94; 36; 123; 125; 40; 41; 124; 91; 93; 92]%N.

(** The text matched by [new RegExp(src)] when [src] is made of ordinary
    characters and of syntax characters escaped by a backslash: the
    backslashes are dropped. *)
Fixpoint regexp_literal (src : jsstring) : jsstring :=
  match src with
  | [] => []
  | c :: r =>
      if (c =? 92)%N then
        match r with
        | x :: r' => x :: regexp_literal r'
        | [] => [c]
        end
      else c :: regexp_literal r
  end.

(** [new Set(iterable)]: the distinct elements in the order in which
    they first occur. *)
Definition uniq {A} `{EqDecision A} (l : list A) : list A :=
  fold_left (fun acc x => if decide (x ∈ acc) then acc else acc ++ [x]) l [].

(** [a || b] on a number that may be [undefined]: [undefined] and [0]
    are falsy. *)
Definition or_number (a : option Z) (b : Z) : Z :=
  match a with
  | Some v => if (v =? 0)%Z then b else v
  | None => b
  end.

(** [a || b] on a string that may be [undefined]: [undefined] and the
    empty string are falsy. *)
Definition or_string (a : option jsstring) (b : jsstring) : jsstring :=
  match a with
  | Some [] | None => b
  | Some s => s
  end.

(** The values a caller may pass where a string is expected. *)
Inductive value :=
| VUndefined
| VNull
| VBool (b : bool)
| VString (s : jsstring).

(** ToString, as applied by [v + '...']. *)
Definition to_string (v : value) : jsstring :=
  match v with
  | VUndefined => str "undefined"
  | VNull => str "null"
  | VBool true => str "true"
  | VBool false => str "false"
  | VString s => s
  end.

Inductive error := TypeError.

(** An insertion-ordered [Map] (association list). *)
Section OrderedMap.
Context {K V : Type} `{EqDecision K}.

Fixpoint get (k : K) (m : list (K * V)) : option V :=
  match m with
  | [] => None
  | (k', v) :: r => if decide (k = k') then Some v else get k r
  end.

Fixpoint set (k : K) (v : V) (m : list (K * V)) : list (K * V) :=
  match m with
  | [] => [(k, v)]
  | (k', v') :: r =>
      if decide (k = k') then (k', v) :: r else (k', v') :: set k v r
  end.
End OrderedMap.

End JS.

(** ** The class [CustomTokenizer] *)

Module Tokenizer.
Import JS.

(** The fields set up by the constructor. *)
Record CustomTokenizer := mkTokenizer {
  vocab : gmap jsstring Z;
  merges : list (list jsstring);
  specialTokens : gmap jsstring Z;
  decoder : gmap Z jsstring
}.

(** The result of a call that may raise: the receiver's fields after
    the call, and the exception if one was raised. *)
Inductive outcome :=
| Returned (t : CustomTokenizer)
| Threw (e : error) (t : CustomTokenizer).

Definition state_of (o : outcome) : CustomTokenizer :=
  match o with Returned t | Threw _ t => t end.

(** [array.forEach((x, idx) => ...)] with the receiver threaded. *)
Fixpoint forEach_from {A S : Type} (f : A -> nat -> S -> S) (idx : nat)
         (l : list A) (s : S) : S :=
  match l with
  | [] => s
  | x :: r => forEach_from f (Datatypes.S idx) r (f x idx s)
  end.

Definition forEach {A S : Type} (f : A -> nat -> S -> S) (l : list A)
  : S -> S := forEach_from f 0 l.

Definition unknown : jsstring := str "<|unknown|>".

Definition specials : list jsstring :=
  [str "<|endoftext|>"; str "<|startoftext|>"; unknown; str "<|space|>"].

(** The callback of [specials.forEach] in [initializeSpecialTokens]. *)
Definition registerSpecial (token : jsstring) (idx : nat) (t : CustomTokenizer)
  : CustomTokenizer :=
  {| vocab := vocab t;
     merges := merges t;
     specialTokens := <[token := Z.of_nat idx]> (specialTokens t);
     decoder := <[Z.of_nat idx := token]> (decoder t) |}.

Definition initializeSpecialTokens (t : CustomTokenizer) : CustomTokenizer :=
  forEach registerSpecial specials t.

Definition constructor : CustomTokenizer :=
  initializeSpecialTokens
    {| vocab := ∅; merges := []; specialTokens := ∅; decoder := ∅ |}.

(** The seed [' \n\t!@#$%^&*()[]{}'] *)
Definition seed : jsstring :=
  [32; 10; 9]%N ++ str "!@#$%^&*()[]{}".

(** [Array.from(new Set(text + seed))] *)
Definition alphabet (text : value) : jsstring :=
  uniq (to_string text ++ seed).

(** The callback of [chars.forEach] in [trainFromText]. *)
Definition seedChar (char : N) (idx : nat) (t : CustomTokenizer)
  : CustomTokenizer :=
  let tokenId := (Z.of_nat (size (specialTokens t)) + Z.of_nat idx)%Z in
  {| vocab := <[[char] := tokenId]> (vocab t);
     merges := merges t;
     specialTokens := specialTokens t;
     decoder := <[tokenId := [char]]> (decoder t) |}.

Definition seedAlphabet (chars : jsstring) (t : CustomTokenizer)
  : CustomTokenizer :=
  forEach seedChar chars t.

(** [preprocessText] on a string. *)
Definition preprocessString (text : jsstring) : list jsstring :=
  List.filter (fun word => (0 <? Z.of_nat (length (trim word)))%Z)
              (split [32%N] (collapse_spaces false text)).

(** [preprocessText]: [text.replace] is a TypeError unless [text] is a
    string. *)
Definition preprocessText (text : value) : error + list jsstring :=
  match text with
  | VString s => inr (preprocessString s)
  | _ => inl TypeError
  end.

Definition separator : jsstring := str "|||".

(** The inner loop of [getPairs] over [Array.from(word)]. *)
Fixpoint countPairs (chars : jsstring) (pairs : list (jsstring * Z))
  : list (jsstring * Z) :=
  match chars with
  | a :: ((b :: _) as rest) =>
      let pair := [a] ++ separator ++ [b] in
      countPairs rest (set pair (or_number (get pair pairs) 0 + 1)%Z pairs)
  | _ => pairs
  end.

Definition getPairs (words : list jsstring) : list (jsstring * Z) :=
  fold_left (fun pairs word => countPairs word pairs) words [].

(** The body of the loop of [getBestPair]: a strictly greater count
    replaces the best pair found so far. *)
Definition scanStep (acc : option (list jsstring) * Z) (entry : jsstring * Z)
  : option (list jsstring) * Z :=
  let '(bestPair, maxCount) := acc in
  let '(pairKey, count) := entry in
  if (count >? maxCount)%Z then (Some (split separator pairKey), count)
  else (bestPair, maxCount).

Definition getBestPair (pairs : list (jsstring * Z))
  : option (list jsstring) :=
  if (Z.of_nat (length pairs) =? 0)%Z then None
  else fst (fold_left scanStep pairs (None, 0%Z)).

Definition escapeRegExp (s : jsstring) : jsstring :=
  flat_map (fun c => if is_syntax_char c then [92%N; c] else [c]) s.

(** [a[i]] for an array of strings; the tokenizer only reads the two
    pieces of a split pair key, which always exist (see
    [getPairs_split]). *)
Definition item (i : nat) (a : list jsstring) : jsstring :=
  default [] (a !! i).

Definition mergePair (words : list jsstring) (pair : list jsstring)
  : list jsstring :=
  let first := item 0 pair in
  let second := item 1 pair in
  List.map
    (fun word =>
       replace_all
         (regexp_literal (escapeRegExp first ++ escapeRegExp second))
         (first ++ second) word)
    words.

(** The bookkeeping of one iteration: the merge is recorded and its
    token entered in the tables. *)
Definition recordMerge (bestPair : list jsstring) (t : CustomTokenizer)
  : CustomTokenizer :=
  let newToken := item 0 bestPair ++ item 1 bestPair in
  let tokenId := Z.of_nat (size (vocab t)) in
  {| vocab := <[newToken := tokenId]> (vocab t);
     merges := merges t ++ [bestPair];
     specialTokens := specialTokens t;
     decoder := <[tokenId := newToken]> (decoder t) |}.

(** The [for] loop of [trainFromText], from its counter [i] on.  Each
    round tests [i < Math.min(2000, vocabSize - this.vocab.size)] anew.
    [fuel] bounds the rounds; 2000 of them are never exceeded (see
    [trainLoop_fuel]). *)
Fixpoint trainLoop (vocabSize : Z) (fuel : nat) (i : Z)
         (words : list jsstring) (t : CustomTokenizer) : CustomTokenizer :=
  match fuel with
  | O => t
  | Datatypes.S fuel' =>
      if (i <? Z.min 2000 (vocabSize - Z.of_nat (size (vocab t))))%Z then
        let pairs := getPairs words in
        if (Z.of_nat (length pairs) =? 0)%Z then t
        else
          match getBestPair pairs with
          | None => t
          | Some bestPair =>
              trainLoop vocabSize fuel' (i + 1)%Z
                        (mergePair words bestPair)
                        (recordMerge bestPair t)
          end
      else t
  end.

Definition trainFromText (text : value) (vocabSize : Z)
           (t : CustomTokenizer) : outcome :=
  let t1 := seedAlphabet (alphabet text) t in
  match preprocessText text with
  | inl e => Threw e t1
  | inr words => Returned (trainLoop vocabSize 2000 0%Z words t1)
  end.

(** The default [vocabSize = 8000]. *)
Definition defaultVocabSize : Z := 8000.

Definition encode (text : jsstring) (t : CustomTokenizer) : list Z :=
  match text with
  | [] => []
  | _ :: _ =>
      List.map
        (fun char =>
           or_number (vocab t !! [char])
                     (or_number (specialTokens t !! unknown) 2))
        text
  end.

Definition decode (tokens : list Z) (t : CustomTokenizer) : jsstring :=
  List.concat
    (List.map (fun token => or_string (decoder t !! token) unknown) tokens).

Definition getVocabSize (t : CustomTokenizer) : Z :=
  Z.of_nat (size (vocab t)).

Definition getVocab (t : CustomTokenizer) : gmap jsstring Z := vocab t.

Definition getTokenText (tokenId : Z) (t : CustomTokenizer) : jsstring :=
  or_string (decoder t !! tokenId) unknown.

End Tokenizer.

(** ** Facts about the primitives *)

Module JSFacts.
Import JS.

Lemma uniq_snoc {A} `{EqDecision A} (l : list A) (x : A) :
  uniq (l ++ [x]) = if decide (x ∈ uniq l) then uniq l else uniq l ++ [x].
Proof. unfold uniq. now rewrite fold_left_app. Qed.

Lemma elem_of_uniq {A} `{EqDecision A} (l : list A) (x : A) :
  x ∈ uniq l <-> x ∈ l.
Proof.
  induction l as [|y l IH] using rev_ind.
  - reflexivity.
  - rewrite uniq_snoc. destruct (decide (y ∈ uniq l)) as [Hy|Hy].
    + rewrite IH, elem_of_app, list_elem_of_singleton.
      split; [tauto|]. intros [Hx| ->]; [exact Hx | now apply IH].
    + rewrite !elem_of_app, IH. reflexivity.
Qed.

Lemma NoDup_uniq {A} `{EqDecision A} (l : list A) : NoDup (uniq l).
Proof.
  induction l as [|y l IH] using rev_ind.
  - constructor.
  - rewrite uniq_snoc. destruct (decide (y ∈ uniq l)) as [Hy|Hy]; [exact IH|].
    apply NoDup_app. split; [exact IH|]. split.
    + intros x Hx Hx'. apply list_elem_of_singleton in Hx'. now subst.
    + apply NoDup_singleton.
Qed.

(** *** The insertion-ordered map *)

Section OrderedMapFacts.
Context {K V : Type} `{EqDecision K}.
Implicit Types (m : list (K * V)) (u : list K).

Lemma get_tabulate (f : K -> V) u k :
  get k (List.map (fun x => (x, f x)) u) = if decide (k ∈ u) then Some (f k) else None.
Proof.
  induction u as [|x u IH]; simpl.
  - destruct (decide (k ∈ [])) as [Hin|]; [|reflexivity]. inversion Hin.
  - destruct (decide (k = x)) as [->|Hne].
    + rewrite decide_True by apply list_elem_of_here. reflexivity.
    + rewrite IH. destruct (decide (k ∈ u)) as [Hin|Hin].
      * rewrite decide_True by now apply list_elem_of_further. reflexivity.
      * rewrite decide_False; [reflexivity|].
        intros Hin'. apply elem_of_cons in Hin'. tauto.
Qed.

Lemma set_tabulate_new (f : K -> V) u k v :
  k ∉ u ->
  set k v (List.map (fun x => (x, f x)) u) = List.map (fun x => (x, f x)) u ++ [(k, v)].
Proof.
  induction u as [|x u IH]; simpl; intros Hk; [reflexivity|].
  apply not_elem_of_cons in Hk as [Hne Hk].
  rewrite decide_False by exact Hne. now rewrite IH.
Qed.

Lemma set_tabulate_old (f : K -> V) u k v :
  NoDup u -> k ∈ u ->
  set k v (List.map (fun x => (x, f x)) u)
  = List.map (fun x => (x, if decide (x = k) then v else f x)) u.
Proof.
  induction 1 as [|x u Hx Hnd IH]; simpl; intros Hk; [inversion Hk|].
  destruct (decide (k = x)) as [->|Hne].
  - rewrite decide_True by reflexivity. f_equal.
    apply map_ext_in. intros y Hy. apply list_elem_of_In in Hy.
    rewrite decide_False; [reflexivity|]. intros ->. contradiction.
  - rewrite decide_False by congruence.
    apply elem_of_cons in Hk as [Hk|Hk]; [contradiction|]. now rewrite IH.
Qed.

End OrderedMapFacts.

(** *** Regular expressions and replacement *)

Lemma is_prefix_app p s : is_prefix p s = true -> s = p ++ drop (length p) s.
Proof.
  revert s. induction p as [|a p IH]; intros [|b s]; simpl; try discriminate.
  - reflexivity.
  - reflexivity.
  - intros H. apply andb_prop in H as [Hab Hp].
    apply N.eqb_eq in Hab. subst b. f_equal. now apply IH.
Qed.

Lemma is_prefix_length p s : is_prefix p s = true -> length p <= length s.
Proof.
  intros H. apply is_prefix_app in H.
  apply (f_equal length) in H. rewrite length_app in H. lia.
Qed.

Lemma substitution_plain repl matched before after :
  36%N ∉ repl -> substitution repl matched before after = repl.
Proof.
  induction repl as [|d r IH]; simpl; intros Hd; [reflexivity|].
  apply not_elem_of_cons in Hd as [Hne Hd].
  destruct (N.eqb_spec d 36) as [->|_]; [congruence|].
  now rewrite IH.
Qed.

(** Replacing a text without dollars by itself changes nothing. *)
Lemma replace_go_same pat before skip s :
  36%N ∉ pat -> skip <= length s ->
  replace_go pat pat before skip s = drop skip s.
Proof.
  intros Hpat. revert before skip.
  induction s as [|c r IH]; intros before skip Hskip; simpl.
  - rewrite drop_nil. now destruct pat.
  - destruct skip as [|k]; simpl in *.
    + destruct (is_prefix pat (c :: r)) eqn:Hpre.
      * rewrite substitution_plain by exact Hpat.
        destruct pat as [|p ps].
        { simpl. now rewrite IH by lia. }
        pose proof (is_prefix_length _ _ Hpre) as Hlen.
        apply is_prefix_app in Hpre. simpl in *.
        rewrite IH by lia. rewrite Nat.sub_0_r. now rewrite <- Hpre.
      * now rewrite IH by lia.
    + apply IH. lia.
Qed.

Lemma replace_all_same pat s : 36%N ∉ pat -> replace_all pat pat s = s.
Proof. intros H. unfold replace_all. now rewrite replace_go_same by (auto; lia). Qed.

End JSFacts.

(** ** Pair counting and pair selection *)

Module PairFacts.
Import JS JSFacts Tokenizer.

(** The keys that [getPairs] counts in one word, in the order of the loop. *)
Fixpoint adjacentKeys (chars : jsstring) : list jsstring :=
  match chars with
  | a :: ((b :: _) as rest) => ([a] ++ separator ++ [b]) :: adjacentKeys rest
  | _ => []
  end.

Definition pairKeys (words : list jsstring) : list jsstring :=
  flat_map adjacentKeys words.

(** How often [key] occurs in [keys]. *)
Fixpoint occurrences (key : jsstring) (keys : list jsstring) : Z :=
  match keys with
  | [] => 0
  | k :: r => (if decide (k = key) then 1 else 0) + occurrences key r
  end.

(** [pairs.set(pair, (pairs.get(pair) || 0) + 1)] *)
Definition bump (pairs : list (jsstring * Z)) (key : jsstring)
  : list (jsstring * Z) :=
  set key (or_number (get key pairs) 0 + 1)%Z pairs.

Lemma occurrences_app key l1 l2 :
  occurrences key (l1 ++ l2) = (occurrences key l1 + occurrences key l2)%Z.
Proof. induction l1 as [|k l1 IH]; simpl; [reflexivity|]. rewrite IH. lia. Qed.

Lemma occurrences_nonneg key l : (0 <= occurrences key l)%Z.
Proof. induction l as [|k l IH]; simpl; [lia|]. destruct (decide (k = key)); lia. Qed.

Lemma occurrences_pos key l : key ∈ l -> (0 < occurrences key l)%Z.
Proof.
  induction 1 as [k l|k k' l _ IH]; simpl.
  - rewrite decide_True by reflexivity. pose proof (occurrences_nonneg k l). lia.
  - destruct (decide (k' = k)); lia.
Qed.

Lemma occurrences_absent key l : key ∉ l -> occurrences key l = 0%Z.
Proof.
  induction l as [|k l IH]; simpl; intros H; [reflexivity|].
  apply not_elem_of_cons in H as [Hne H].
  rewrite decide_False by congruence. now rewrite IH.
Qed.

Lemma countPairs_fold chars pairs :
  countPairs chars pairs = fold_left bump (adjacentKeys chars) pairs.
Proof.
  revert pairs. induction chars as [|a [|b rest] IH]; intros pairs; try reflexivity.
  change (countPairs (a :: b :: rest) pairs)
    with (countPairs (b :: rest) (bump pairs ([a] ++ separator ++ [b]))).
  now rewrite IH.
Qed.

Lemma getPairs_fold words :
  getPairs words = fold_left bump (pairKeys words) [].
Proof.
  unfold getPairs, pairKeys. generalize (@nil (jsstring * Z)).
  induction words as [|w words IH]; intros pairs; simpl; [reflexivity|].
  now rewrite fold_left_app, IH, countPairs_fold.
Qed.

(** The table built from a list of keys holds, for each distinct key in
    the order of first occurrence, the number of its occurrences. *)
Lemma tally_fold keys :
  fold_left bump keys []
  = List.map (fun k => (k, occurrences k keys)) (uniq keys).
Proof.
  induction keys as [|key keys IH] using rev_ind; [reflexivity|].
  rewrite fold_left_app, IH, uniq_snoc. simpl. unfold bump.
  rewrite get_tabulate.
  destruct (decide (key ∈ uniq keys)) as [Hin|Hin].
  - rewrite set_tabulate_old by (auto using NoDup_uniq).
    apply map_ext. intros k. rewrite occurrences_app. simpl.
    destruct (decide (k = key)) as [->|Hne].
    + rewrite decide_True by reflexivity. unfold or_number.
      destruct (Z.eqb_spec (occurrences key keys) 0) as [->|_]; f_equal; lia.
    + rewrite decide_False by congruence. f_equal. lia.
  - rewrite set_tabulate_new by exact Hin. rewrite map_app. simpl.
    f_equal.
    + apply map_ext_in. intros k Hk. apply list_elem_of_In in Hk.
      rewrite occurrences_app. simpl.
      rewrite decide_False by (intros ->; contradiction). f_equal. lia.
    + rewrite occurrences_app. simpl. rewrite decide_True by reflexivity.
      rewrite elem_of_uniq in Hin. rewrite occurrences_absent by exact Hin.
      reflexivity.
Qed.

Lemma getPairs_tally words :
  getPairs words
  = List.map (fun k => (k, occurrences k (pairKeys words))) (uniq (pairKeys words)).
Proof. rewrite getPairs_fold. apply tally_fold. Qed.

(** The scan stops on the first entry whose count is the greatest. *)
Lemma scan_first_max pairs :
  (fold_left scanStep pairs (None, 0%Z) = (None, 0%Z) /\
   forall k c, (k, c) ∈ pairs -> (c <= 0)%Z)
  \/
  (exists before key count after,
      pairs = before ++ (key, count) :: after /\
      fold_left scanStep pairs (None, 0%Z)
      = (Some (split separator key), count) /\
      (0 < count)%Z /\
      (forall k c, (k, c) ∈ before -> (c < count)%Z) /\
      (forall k c, (k, c) ∈ after -> (c <= count)%Z)).
Proof.
  induction pairs as [|[k' c'] pairs IH] using rev_ind.
  - left. split; [reflexivity|]. intros k c H. inversion H.
  - rewrite fold_left_app.
    destruct IH as [[-> Hall]|(before & key & count & after & -> & -> & Hpos & Hb & Ha)];
      simpl.
    + destruct (Z.gtb_spec c' 0) as [Hgt|Hle].
      * right. exists pairs, k', c', []. split; [reflexivity|].
        split; [reflexivity|]. split; [lia|]. split.
        -- intros k c H. apply Hall in H. lia.
        -- intros k c H. inversion H.
      * left. split; [reflexivity|]. intros k c H.
        apply elem_of_app in H as [H|H]; [now apply Hall in H|].
        apply list_elem_of_singleton in H. inversion H; subst. lia.
    + destruct (Z.gtb_spec c' count) as [Hgt|Hle].
      * right. exists (before ++ (key, count) :: after), k', c', [].
        split; [reflexivity|]. split; [reflexivity|]. split; [lia|]. split.
        -- intros k c H. apply elem_of_app in H as [H|H]; [specialize (Hb _ _ H); lia|].
           apply elem_of_cons in H as [H|H]; [inversion H; subst; lia|].
           specialize (Ha _ _ H). lia.
        -- intros k c H. inversion H.
      * right. exists before, key, count, (after ++ [(k', c')]).
        split; [now rewrite <- app_assoc|]. split; [reflexivity|].
        split; [lia|]. split; [exact Hb|].
        intros k c H. apply elem_of_app in H as [H|H]; [exact (Ha _ _ H)|].
        apply list_elem_of_singleton in H. inversion H; subst. lia.
Qed.

Lemma elem_of_tally keys k c :
  (k, c) ∈ List.map (fun k => (k, occurrences k keys)) (uniq keys) ->
  k ∈ keys /\ c = occurrences k keys.
Proof.
  intros H. apply list_elem_of_In, in_map_iff in H as (k0 & Heq & Hin).
  inversion Heq; subst. split; [|reflexivity].
  now apply elem_of_uniq, list_elem_of_In.
Qed.

End PairFacts.

(** ** The training loop *)

Module TrainFacts.
Import JS JSFacts Tokenizer PairFacts.

(** The token a recorded merge stands for: [bestPair[0] + bestPair[1]]. *)
Definition mergeToken (bestPair : list jsstring) : jsstring :=
  item 0 bestPair ++ item 1 bestPair.

(** [this.vocab.set(newToken, this.vocab.size)] *)
Definition enter (v : gmap jsstring Z) (token : jsstring) : gmap jsstring Z :=
  <[token := Z.of_nat (size v)]> v.

(** Splitting the key of two characters gives two pieces that concatenate
    to the two characters, also when one of them is the bar of the
    separator. *)
Lemma split_key a b :
  exists l r, split separator ([a] ++ separator ++ [b]) = [l; r] /\ l ++ r = [a; b].
Proof.
  change separator with [124; 124; 124]%N. unfold split.
  cbn [split_go is_prefix length rev app Nat.sub andb].
  destruct (N.eqb_spec 124 a) as [<-|Ha];
    destruct (N.eqb_spec 124 b) as [<-|Hb];
    cbn [split_go is_prefix length rev app Nat.sub andb];
    rewrite ?N.eqb_refl, ?andb_false_r;
    cbn [split_go is_prefix length rev app Nat.sub andb]; eauto.
Qed.

Lemma adjacentKeys_shape chars key :
  key ∈ adjacentKeys chars -> exists a b, key = [a] ++ separator ++ [b].
Proof.
  induction chars as [|a [|b rest] IH]; try (intros H; now inversion H).
  change (adjacentKeys (a :: b :: rest))
    with (([a] ++ separator ++ [b]) :: adjacentKeys (b :: rest)).
  intros H. apply elem_of_cons in H as [->|H]; eauto.
Qed.

Lemma pairKeys_shape words key :
  key ∈ pairKeys words -> exists a b, key = [a] ++ separator ++ [b].
Proof.
  unfold pairKeys. intros H. apply list_elem_of_In, in_flat_map in H as (w & _ & H).
  apply list_elem_of_In in H. eauto using adjacentKeys_shape.
Qed.

(** What [getBestPair] returns on a table of [getPairs] is an array of
    two strings, which together are two characters. *)
Lemma getPairs_split words bestPair :
  getBestPair (getPairs words) = Some bestPair ->
  exists l r a b, bestPair = [l; r] /\ l ++ r = [a; b].
Proof.
  unfold getBestPair. destruct (Z.of_nat (length (getPairs words)) =? 0)%Z; [discriminate|].
  destruct (scan_first_max (getPairs words))
    as [[-> _]|(before & key & count & after & Hsplit & -> & _)]; [discriminate|].
  simpl. intros [= <-].
  assert (Hin : (key, count) ∈ getPairs words).
  { rewrite Hsplit. apply elem_of_app. right. apply list_elem_of_here. }
  rewrite getPairs_tally in Hin. apply elem_of_tally in Hin as [Hin _].
  apply pairKeys_shape in Hin as (a & b & ->).
  destruct (split_key a b) as (l & r & -> & Hlr). eauto 6.
Qed.

Lemma mergeToken_length words bestPair :
  getBestPair (getPairs words) = Some bestPair -> length (mergeToken bestPair) = 2.
Proof.
  intros H. apply getPairs_split in H as (l & r & a & b & -> & Hlr).
  unfold mergeToken, item. simpl. now rewrite Hlr.
Qed.

(** A property of the tokenizer that every recorded merge preserves holds
    when the loop ends.  A merge is only recorded while the vocabulary is
    smaller than the target. *)
Lemma trainLoop_invariant (P : CustomTokenizer -> Prop) vocabSize :
  (forall t words bestPair,
      P t -> (Z.of_nat (size (vocab t)) < vocabSize)%Z ->
      getBestPair (getPairs words) = Some bestPair ->
      P (recordMerge bestPair t)) ->
  forall fuel i words t,
    (0 <= i)%Z -> P t -> P (trainLoop vocabSize fuel i words t).
Proof.
  intros Hstep. induction fuel as [|fuel IH]; intros i words t Hi HP; simpl; [exact HP|].
  destruct (Z.ltb_spec i (Z.min 2000 (vocabSize - Z.of_nat (size (vocab t)))))
    as [Hlt|_]; [|exact HP].
  destruct (Z.of_nat (length (getPairs words)) =? 0)%Z; [exact HP|].
  destruct (getBestPair (getPairs words)) as [bestPair|] eqn:Hbest; [|exact HP].
  apply IH; [lia|]. apply (Hstep t words); auto. lia.
Qed.

(** The loop never needs more than [2000 - i] rounds: more fuel changes
    nothing. *)
Lemma trainLoop_fuel vocabSize fuel1 fuel2 i words t :
  (2000 - i <= Z.of_nat fuel1)%Z -> (2000 - i <= Z.of_nat fuel2)%Z ->
  trainLoop vocabSize fuel1 i words t = trainLoop vocabSize fuel2 i words t.
Proof.
  revert fuel2 i words t.
  induction fuel1 as [|fuel1 IH]; intros [|fuel2] i words t H1 H2; simpl;
    try reflexivity;
    destruct (Z.ltb_spec i (Z.min 2000 (vocabSize - Z.of_nat (size (vocab t)))))
      as [Hlt|_]; try reflexivity; try lia.
  destruct (Z.of_nat (length (getPairs words)) =? 0)%Z; [reflexivity|].
  destruct (getBestPair (getPairs words)); [|reflexivity].
  apply IH; lia.
Qed.

Lemma recordMerge_size bestPair t :
  size (vocab (recordMerge bestPair t)) <= S (size (vocab t)).
Proof.
  simpl. rewrite map_size_insert.
  destruct (vocab t !! _); simpl; lia.
Qed.

Lemma trainLoop_size vocabSize fuel i words t :
  (0 <= i)%Z ->
  (Z.of_nat (size (vocab (trainLoop vocabSize fuel i words t)))
   <= Z.max vocabSize (Z.of_nat (size (vocab t))))%Z.
Proof.
  intros Hi.
  apply (trainLoop_invariant
           (fun t' => (Z.of_nat (size (vocab t'))
                       <= Z.max vocabSize (Z.of_nat (size (vocab t))))%Z));
    [|exact Hi|lia].
  intros t' words' bestPair _ Hlt _.
  pose proof (recordMerge_size bestPair t'). lia.
Qed.

(** *** Entering tokens in the vocabulary *)

Lemma enter_all_lookup (tokens : list jsstring) (v : gmap jsstring Z) k :
  is_Some (foldl enter v tokens !! k) <-> is_Some (v !! k) \/ k ∈ tokens.
Proof.
  revert v. induction tokens as [|tok tokens IH]; intros v; simpl.
  - split; [auto|]. intros [H|H]; [exact H|inversion H].
  - rewrite IH. unfold enter. rewrite lookup_insert_is_Some, elem_of_cons.
    destruct (decide (tok = k)) as [->|Hne]; [tauto|].
    split; intros H; [|intuition congruence]. tauto.
Qed.

Lemma enter_all_size_le (tokens : list jsstring) (v : gmap jsstring Z) :
  size (foldl enter v tokens) <= size v + length tokens.
Proof.
  revert v. induction tokens as [|tok tokens IH]; intros v; simpl; [lia|].
  specialize (IH (enter v tok)).
  assert (size (enter v tok) <= S (size v)); [|lia].
  unfold enter. rewrite map_size_insert. destruct (v !! tok); simpl; lia.
Qed.

(** Tokens that are new and pairwise distinct each add an entry. *)
Lemma enter_all_size (tokens : list jsstring) (v : gmap jsstring Z) :
  NoDup tokens -> (forall tok, tok ∈ tokens -> v !! tok = None) ->
  size (foldl enter v tokens) = size v + length tokens.
Proof.
  intros Hnd. revert v. induction Hnd as [|tok tokens Hnot Hnd IH]; intros v Hnew; simpl; [lia|].
  rewrite IH.
  - unfold enter. rewrite map_size_insert_None; [lia|].
    apply Hnew, list_elem_of_here.
  - intros tok' Hin. unfold enter. rewrite lookup_insert_ne.
    + apply Hnew. now apply list_elem_of_further.
    + intros ->. contradiction.
Qed.

(** The loop appends merges, and the vocabulary it leaves is the one it
    found with the tokens of these merges entered in order. *)
Lemma trainLoop_merges vocabSize fuel i words t :
  (0 <= i)%Z ->
  exists ms,
    merges (trainLoop vocabSize fuel i words t) = merges t ++ ms /\
    vocab (trainLoop vocabSize fuel i words t)
    = foldl enter (vocab t) (List.map mergeToken ms) /\
    Forall (fun bestPair => length (mergeToken bestPair) = 2) ms.
Proof.
  intros Hi.
  apply (trainLoop_invariant
           (fun t' => exists ms,
                merges t' = merges t ++ ms /\
                vocab t' = foldl enter (vocab t) (List.map mergeToken ms) /\
                Forall (fun bestPair => length (mergeToken bestPair) = 2) ms));
    [|exact Hi|].
  - intros t' words' bestPair (ms & Hm & Hv & Hall) _ Hbest.
    exists (ms ++ [bestPair]). split; [|split].
    + simpl. rewrite Hm. now rewrite <- app_assoc.
    + simpl. rewrite map_app, foldl_app, <- Hv. reflexivity.
    + apply Forall_app. split; [exact Hall|].
      constructor; [|constructor]. eauto using mergeToken_length.
  - exists []. rewrite app_nil_r. repeat split. constructor.
Qed.

(** *** Seeding the alphabet *)

Lemma seed_merges chars idx t :
  merges (forEach_from seedChar idx chars t) = merges t.
Proof.
  revert idx t. induction chars as [|c chars IH]; intros idx t; simpl; [reflexivity|].
  now rewrite IH.
Qed.

Lemma seed_specialTokens chars idx t :
  specialTokens (forEach_from seedChar idx chars t) = specialTokens t.
Proof.
  revert idx t. induction chars as [|c chars IH]; intros idx t; simpl; [reflexivity|].
  now rewrite IH.
Qed.

Lemma seed_lookup chars idx t k :
  is_Some (vocab (forEach_from seedChar idx chars t) !! k)
  <-> is_Some (vocab t !! k) \/ exists c, c ∈ chars /\ k = [c].
Proof.
  revert idx t. induction chars as [|c chars IH]; intros idx t; simpl.
  - split; [auto|]. intros [H|(c & H & _)]; [exact H|inversion H].
  - rewrite IH. simpl. rewrite lookup_insert_is_Some. split.
    + intros [[H|[_ H]]|(c' & Hin & ->)]; eauto using list_elem_of_here, list_elem_of_further.
    + intros [H|(c' & Hin & ->)].
      * destruct (decide ([c] = k)); auto.
      * apply elem_of_cons in Hin as [->|Hin]; eauto.
Qed.

Lemma seed_size chars idx t :
  NoDup chars -> (forall c, c ∈ chars -> vocab t !! [c] = None) ->
  size (vocab (forEach_from seedChar idx chars t)) = size (vocab t) + length chars.
Proof.
  intros Hnd. revert idx t.
  induction Hnd as [|c chars Hnot Hnd IH]; intros idx t Hnew; simpl; [lia|].
  rewrite IH.
  - simpl. rewrite map_size_insert_None; [lia|]. apply Hnew, list_elem_of_here.
  - intros c' Hin. simpl. rewrite lookup_insert_ne.
    + apply Hnew. now apply list_elem_of_further.
    + intros [= ->]. contradiction.
Qed.

Lemma constructor_vocab : vocab constructor = ∅.
Proof. reflexivity. Qed.

Lemma constructor_merges : merges constructor = [].
Proof. reflexivity. Qed.

(** On a new tokenizer the seeded vocabulary has one entry for each
    character of the alphabet. *)
Lemma seedAlphabet_size text :
  size (vocab (seedAlphabet (alphabet text) constructor))
  = length (alphabet text).
Proof.
  unfold seedAlphabet, forEach. rewrite seed_size.
  - now rewrite constructor_vocab, map_size_empty.
  - apply NoDup_uniq.
  - intros c _. now rewrite constructor_vocab.
Qed.

(** *** Merging *)

(** The pattern built from the escaped halves matches their literal text. *)
Lemma regexp_literal_escape s rest :
  regexp_literal (escapeRegExp s ++ rest) = s ++ regexp_literal rest.
Proof.
  induction s as [|c s IH]; [reflexivity|].
  unfold escapeRegExp in *. cbn [flat_map].
  destruct (is_syntax_char c) eqn:Hc.
  - cbn [app regexp_literal]. rewrite N.eqb_refl. now rewrite IH.
  - cbn [app regexp_literal].
    destruct (N.eqb_spec c 92) as [->|_]; [discriminate Hc|]. now rewrite IH.
Qed.

Lemma mergePair_pattern first second :
  regexp_literal (escapeRegExp first ++ escapeRegExp second) = first ++ second.
Proof.
  rewrite regexp_literal_escape. f_equal.
  rewrite <- (app_nil_r (escapeRegExp second)), regexp_literal_escape.
  apply app_nil_r.
Qed.

(** Unless the pair holds a dollar, which the replacement text would
    interpret, [mergePair] returns the words as they were: the pair is
    replaced by the very same characters. *)
Lemma mergePair_plain words pair :
  36%N ∉ item 0 pair ++ item 1 pair -> mergePair words pair = words.
Proof.
  intros Hplain. unfold mergePair. rewrite mergePair_pattern.
  induction words as [|w words IH]; simpl; [reflexivity|].
  rewrite IH. now rewrite replace_all_same.
Qed.

End TrainFacts.

(** ** The run of [trainFromText] as a relation

    The same method, read as a big-step relation: one rule for each way
    of leaving the loop and one for a round.  The function [trainFromText]
    computes what the relation describes. *)

Module Run.
Import JS Tokenizer.

Inductive loopRuns (vocabSize : Z)
  : Z -> list jsstring -> CustomTokenizer -> CustomTokenizer -> Prop :=
| loop_exit i words t :
    ~ (i < Z.min 2000 (vocabSize - Z.of_nat (size (vocab t))))%Z ->
    loopRuns vocabSize i words t t
| loop_break_empty i words t :
    (i < Z.min 2000 (vocabSize - Z.of_nat (size (vocab t))))%Z ->
    length (getPairs words) = 0 ->
    loopRuns vocabSize i words t t
| loop_break_null i words t :
    (i < Z.min 2000 (vocabSize - Z.of_nat (size (vocab t))))%Z ->
    length (getPairs words) <> 0 ->
    getBestPair (getPairs words) = None ->
    loopRuns vocabSize i words t t
| loop_round i words t bestPair t' :
    (i < Z.min 2000 (vocabSize - Z.of_nat (size (vocab t))))%Z ->
    length (getPairs words) <> 0 ->
    getBestPair (getPairs words) = Some bestPair ->
    loopRuns vocabSize (i + 1) (mergePair words bestPair)
             (recordMerge bestPair t) t' ->
    loopRuns vocabSize i words t t'.

Inductive trainRuns (text : value) (vocabSize : Z) (t : CustomTokenizer)
  : outcome -> Prop :=
| train_throws e :
    preprocessText text = inl e ->
    trainRuns text vocabSize t (Threw e (seedAlphabet (alphabet text) t))
| train_returns words t' :
    preprocessText text = inr words ->
    loopRuns vocabSize 0 words (seedAlphabet (alphabet text) t) t' ->
    trainRuns text vocabSize t (Returned t').

Lemma loopRuns_deterministic vocabSize i words t t1 t2 :
  loopRuns vocabSize i words t t1 -> loopRuns vocabSize i words t t2 -> t1 = t2.
Proof.
  intros H1. revert t2.
  induction H1 as [i words t Hge|i words t Hlt Hlen|i words t Hlt Hlen Hnone
                  |i words t bestPair t' Hlt Hlen Hbest _ IH];
    intros t2 H2; inversion H2; subst; try reflexivity; try contradiction;
    try congruence.
  apply IH. congruence.
Qed.

Lemma trainRuns_deterministic text vocabSize t o1 o2 :
  trainRuns text vocabSize t o1 -> trainRuns text vocabSize t o2 -> o1 = o2.
Proof.
  intros [e1 H1|w1 t1 H1 L1] [e2 H2|w2 t2 H2 L2]; try congruence.
  assert (w1 = w2) by congruence. subst w2.
  f_equal. eauto using loopRuns_deterministic.
Qed.

Lemma trainLoop_runs vocabSize fuel i words t :
  (2000 - i <= Z.of_nat fuel)%Z ->
  loopRuns vocabSize i words t (trainLoop vocabSize fuel i words t).
Proof.
  revert i words t. induction fuel as [|fuel IH]; intros i words t Hfuel; simpl.
  - apply loop_exit. lia.
  - destruct (Z.ltb_spec i (Z.min 2000 (vocabSize - Z.of_nat (size (vocab t)))))
      as [Hlt|Hge]; [|apply loop_exit; lia].
    destruct (Z.eqb_spec (Z.of_nat (length (getPairs words))) 0) as [Hlen|Hlen];
      [apply loop_break_empty; [exact Hlt|lia]|].
    destruct (getBestPair (getPairs words)) as [bestPair|] eqn:Hbest.
    + eapply loop_round; eauto; [lia|]. apply IH. lia.
    + apply loop_break_null; auto. lia.
Qed.

(** Every call has an outcome, the one the function computes. *)
Lemma trainFromText_runs text vocabSize t :
  trainRuns text vocabSize t (trainFromText text vocabSize t).
Proof.
  unfold trainFromText. destruct (preprocessText text) as [e|words] eqn:Hpre.
  - now apply train_throws.
  - eapply train_returns; [exact Hpre|]. apply trainLoop_runs. simpl. lia.
Qed.

End Run.

(** ** The properties of the specification *)

Import JS JSFacts Tokenizer PairFacts TrainFacts Run.

(** [trainFromText(corpus, vocabSize)] on a new tokenizer, for a corpus
    that is a string. *)
Definition trained (corpus : jsstring) (vocabSize : Z) : CustomTokenizer :=
  state_of (trainFromText (VString corpus) vocabSize constructor).

(** Strings, and pairs of strings, in lexicographic order. *)
Fixpoint str_ltb (s1 s2 : jsstring) : bool :=
  match s1, s2 with
  | _, [] => false
  | [], _ :: _ => true
  | a :: r1, b :: r2 => (a <? b)%N || ((a =? b)%N && str_ltb r1 r2)
  end.

Definition pair_ltb (p q : jsstring * jsstring) : bool :=
  str_ltb p.1 q.1 || (bool_decide (p.1 = q.1) && str_ltb p.2 q.2).

(** The claim of C6 as the specification words it: no pair of greatest
    frequency is lexicographically smaller than the selected one. *)
Definition selects_lexicographically_smallest (words : list jsstring) : Prop :=
  forall left right,
    getBestPair (getPairs words) = Some [left; right] ->
    forall a b count,
      get ([a] ++ separator ++ [b]) (getPairs words) = Some count ->
      (forall k c, (k, c) ∈ getPairs words -> (c <= count)%Z) ->
      pair_ltb ([a], [b]) (left, right) = false.

(** Decoding what was encoded gives the text back. *)
Definition roundtrip (t : CustomTokenizer) (text : jsstring) : Prop :=
  decode (encode text t) t = text.

(** The decoder is the inverse of the vocabulary joined with the special
    tokens. *)
Definition decoder_inverse (t : CustomTokenizer) : Prop :=
  forall symbol id,
    (vocab t ∪ specialTokens t) !! symbol = Some id <->
    decoder t !! id = Some symbol.

(** The claim of C5 as the specification words it. *)
Definition mergeRuleCount_claim (corpus : jsstring) (vocabSize : Z) : Prop :=
  let t := trained corpus vocabSize in
  Z.of_nat (length (merges t))
  = (getVocabSize t - Z.of_nat (length (alphabet (VString corpus)))
     - Z.of_nat (size (specialTokens t)))%Z.

(** The claim of C7 as the specification words it. *)
Definition boundedGrowth_claim (corpus : jsstring) (vocabSize : Z) : Prop :=
  (getVocabSize (trained corpus vocabSize) <= vocabSize)%Z.

(** Any number of calls of [trainFromText] on a new tokenizer. *)
Definition trainAll (runs : list (value * Z)) : CustomTokenizer :=
  foldl (fun t run => state_of (trainFromText run.1 run.2 t)) constructor runs.

(** The keys of the vocabulary are characters and merge tokens. *)
Definition short_keys (t : CustomTokenizer) : Prop :=
  forall k, is_Some (vocab t !! k) -> length k <= 2.

(** The tables hang together: every id of the vocabulary has a decoder
    entry, and every recorded merge is an array of two strings whose
    token, of two characters, is a key of the vocabulary. *)
Definition linked (t : CustomTokenizer) : Prop :=
  (forall k id, vocab t !! k = Some id -> is_Some (decoder t !! id)) /\
  Forall (fun bestPair =>
            length bestPair = 2 /\ length (mergeToken bestPair) = 2 /\
            is_Some (vocab t !! mergeToken bestPair))
         (merges t).

(** What every call of [trainFromText] keeps true of the tables: the
    special tokens are those of the constructor and keep their decoder
    entries; the ids of the vocabulary start after them; the decoder holds
    no empty string and no id outside of [0 .. 3 + vocab.size]. *)
Definition well_formed (t : CustomTokenizer) : Prop :=
  specialTokens t = specialTokens constructor /\
  (forall id, (id < 4)%Z -> decoder t !! id = decoder constructor !! id) /\
  (forall k id, vocab t !! k = Some id -> (4 <= id)%Z) /\
  (forall id s, decoder t !! id = Some s ->
     (0 <= id < 4 + Z.of_nat (size (vocab t)))%Z /\ s <> []).

Lemma uniq_nil_inv {A} `{EqDecision A} (l : list A) : uniq l = [] -> l = [].
Proof.
  destruct l as [|x l]; [reflexivity|]. intros H.
  assert (Hx : x ∈ uniq (x :: l)) by apply elem_of_uniq, list_elem_of_here.
  rewrite H in Hx. inversion Hx.
Qed.

Lemma tally_keys (keys : list jsstring) :
  List.map fst (List.map (fun k => (k, occurrences k keys)) (uniq keys)) = uniq keys.
Proof. rewrite map_map. simpl. apply map_id. Qed.

(** C6 (as the code has it): [getBestPair] applied to the table of
    [getPairs] selects a pair key of greatest frequency, the frequency of
    a key being the number of places where its two characters are adjacent
    within a word; among the keys of greatest frequency it selects the one
    that occurs first in the words, every key before it being strictly
    less frequent.  It returns the two pieces of that key, and returns
    nothing only when no word has two characters. *)
Theorem getBestPair_first_most_frequent (words : list jsstring) :
  let keys := pairKeys words in
  match getBestPair (getPairs words) with
  | None => keys = []
  | Some bestPair =>
      exists i key,
        uniq keys !! i = Some key /\
        bestPair = split separator key /\
        (forall k, (occurrences k keys <= occurrences key keys)%Z) /\
        (forall j k, j < i -> uniq keys !! j = Some k ->
                     (occurrences k keys < occurrences key keys)%Z)
  end.
Proof.
  intros keys. unfold getBestPair. rewrite getPairs_tally. fold keys.
  set (pairs := List.map (fun k => (k, occurrences k keys)) (uniq keys)).
  destruct (Z.eqb_spec (Z.of_nat (length pairs)) 0) as [Hlen|Hlen].
  - apply uniq_nil_inv. unfold pairs in Hlen. rewrite length_map in Hlen.
    destruct (uniq keys); [reflexivity|simpl in Hlen; lia].
  - destruct (scan_first_max pairs)
      as [[_ Hall]|(before & key & count & after & Hsplit & -> & Hpos & Hb & Ha)].
    + exfalso. destruct pairs as [|[k c] pairs'] eqn:Hpairs; [simpl in Hlen; lia|].
      assert (Hin : (k, c) ∈ pairs) by (rewrite Hpairs; apply list_elem_of_here).
      pose proof (Hall k c ltac:(apply list_elem_of_here)) as Hle.
      apply elem_of_tally in Hin as [Hin ->].
      apply occurrences_pos in Hin. lia.
    + simpl.
      assert (Hcount : forall k c, (k, c) ∈ pairs -> k ∈ keys /\ c = occurrences k keys)
        by (intros k c; apply elem_of_tally).
      assert (Hkey : count = occurrences key keys).
      { apply (Hcount key count). rewrite Hsplit.
        apply elem_of_app. right. apply list_elem_of_here. }
      assert (Hu : uniq keys = List.map fst before ++ key :: List.map fst after).
      { rewrite <- tally_keys. fold pairs. rewrite Hsplit, map_app. reflexivity. }
      exists (length before), key. split; [|split; [reflexivity|split]].
      * rewrite Hu. apply list_lookup_middle. now rewrite length_map.
      * intros k. rewrite <- Hkey. destruct (decide (k ∈ keys)) as [Hin|Hin].
        -- assert (Hp : (k, occurrences k keys) ∈ pairs).
           { apply list_elem_of_In, in_map_iff. exists k. split; [reflexivity|].
             now apply list_elem_of_In, elem_of_uniq. }
           rewrite Hsplit in Hp. apply elem_of_app in Hp as [Hp|Hp].
           ++ specialize (Hb _ _ Hp). lia.
           ++ apply elem_of_cons in Hp as [Hp|Hp]; [inversion Hp; lia|].
              exact (Ha _ _ Hp).
        -- rewrite occurrences_absent by exact Hin. lia.
      * intros j k Hj Hjk. rewrite <- Hkey.
        rewrite Hu, lookup_app_l in Hjk by now rewrite length_map.
        apply list_elem_of_lookup_2, list_elem_of_In, in_map_iff in Hjk
          as ([k0 c] & Hk & Hin). simpl in Hk. subst k0.
        apply list_elem_of_In in Hin.
        assert (Hp : (k, c) ∈ pairs).
        { rewrite Hsplit. apply elem_of_app. now left. }
        apply Hcount in Hp as [_ Hc]. rewrite <- Hc. exact (Hb _ _ Hin).
Qed.

(** C6, counterexample: in the words [ba ab] both pairs occur once; the
    code selects [(b, a)], which it met first, although [(a, b)] is
    lexicographically smaller. *)
Lemma tie_break_is_not_lexicographic :
  ~ selects_lexicographically_smallest [str "ba"; str "ab"].
Proof.
  intros H.
  specialize (H (str "b") (str "a") eq_refl 97%N 98%N 1%Z eq_refl).
  assert (Hmax : forall k c, (k, c) ∈ getPairs [str "ba"; str "ab"] -> (c <= 1)%Z).
  { intros k c Hin. apply list_elem_of_In in Hin. vm_compute in Hin.
    destruct Hin as [Hin|[Hin|[]]]; inversion Hin; lia. }
  specialize (H Hmax). vm_compute in H. discriminate H.
Qed.

(** ** C1 *)

(** C1 (the code at the failing input): after [trainFromText("ab")] with
    the default target size, the text ["["], whose only character is in the
    trained alphabet, is encoded as id 19 and decoded as ["ab"]: the round
    trip does not give the text back. *)
Theorem roundtrip_lost_after_merge :
  let t := trained (str "ab") defaultVocabSize in
  Forall (fun c => In c (alphabet (VString (str "ab")))) (str "[") /\
  encode (str "[") t = [19%Z] /\
  decode (encode (str "[") t) t = str "ab" /\
  ~ roundtrip t (str "[").
Proof.
  split; [|split; [|split]].
  - constructor; [|constructor]. vm_compute. tauto.
  - vm_compute. reflexivity.
  - vm_compute. reflexivity.
  - unfold roundtrip. vm_compute. discriminate.
Qed.

(** ** C2 *)

(** C2 (the code at the failing input): seeding the alphabet of ["ab"]
    assigns the ids 4 to 22, id 19 to ["["] and id 22 to ["}"]; the one
    merge that training with target size 20 then records enters ["ab"]
    under id 19, an id that is smaller than the ids assigned before and
    that belonged to ["["], and the decoder entry of id 19 is overwritten. *)
Theorem merge_takes_assigned_id :
  let seeded := seedAlphabet (alphabet (VString (str "ab"))) constructor in
  let merged := trained (str "ab") 20 in
  merged = recordMerge [str "a"; str "b"] seeded /\
  vocab seeded !! str "}" = Some 22%Z /\
  vocab seeded !! str "[" = Some 19%Z /\
  decoder seeded !! 19%Z = Some (str "[") /\
  vocab seeded !! str "ab" = None /\
  vocab merged !! str "ab" = Some 19%Z /\
  decoder merged !! 19%Z = Some (str "ab").
Proof. vm_compute. repeat split; reflexivity. Qed.

(** ** C3 *)

(** C3 (the code at the failing input): after the one merge of training on
    ["ab"] with target size 20, ["["] and ["ab"] both have id 19 in the
    vocabulary and the decoder maps 19 to ["ab"] only, so the decoder is
    not the inverse of the vocabulary. *)
Theorem decoder_not_inverse_after_merge :
  let t := trained (str "ab") 20 in
  vocab t !! str "[" = Some 19%Z /\
  vocab t !! str "ab" = Some 19%Z /\
  decoder t !! 19%Z = Some (str "ab") /\
  ~ decoder_inverse t.
Proof.
  split; [|split; [|split]]; try (vm_compute; reflexivity).
  intros H. destruct (H (str "[") 19%Z) as [H1 _].
  assert (Hd : decoder (trained (str "ab") 20) !! 19%Z = Some (str "ab"))
    by (vm_compute; reflexivity).
  rewrite Hd in H1. discriminate H1. vm_compute. reflexivity.
Qed.

(** ** C4 *)

(** C4 (the code at the failing input): merging the pair [(a, b)] in the
    word ["ab"] returns the word unchanged, and [getPairs] still counts
    [a] and [b] as two adjacent symbols; training on ["ab"] with target
    size 22 therefore records the same merge twice. *)
Theorem merged_pair_still_counted :
  mergePair [str "ab"] [str "a"; str "b"] = [str "ab"] /\
  getPairs (mergePair [str "ab"] [str "a"; str "b"]) = [(str "a|||b", 1%Z)] /\
  getPairs [str "ab"] = [(str "a|||b", 1%Z)] /\
  merges (trained (str "ab") 22) = [[str "a"; str "b"]; [str "a"; str "b"]].
Proof. vm_compute. repeat split; reflexivity. Qed.

(** ** C5 *)

(** C5, counterexample: training on ["ab"] with target size 20 records one
    merge, while the vocabulary size 20 less the 19 characters of the
    alphabet less the 4 special tokens is -3.  (Counting the decoder's 23
    entries instead gives 0.) *)
Lemma mergeRuleCount_counterexample :
  ~ mergeRuleCount_claim (str "ab") 20 /\
  Z.of_nat (length (merges (trained (str "ab") 20)))
  <> (Z.of_nat (size (decoder (trained (str "ab") 20))) - 19 - 4)%Z.
Proof. split; vm_compute; discriminate. Qed.

Lemma trained_eq corpus vocabSize :
  trained corpus vocabSize
  = trainLoop vocabSize 2000 0 (preprocessString corpus)
              (seedAlphabet (alphabet (VString corpus)) constructor).
Proof. reflexivity. Qed.

(** The merges recorded by a run on a new tokenizer and the vocabulary it
    leaves. *)
Lemma trained_merges corpus vocabSize :
  let t := trained corpus vocabSize in
  vocab t = foldl enter (vocab (seedAlphabet (alphabet (VString corpus)) constructor))
                  (List.map mergeToken (merges t)) /\
  Forall (fun bestPair => length (mergeToken bestPair) = 2) (merges t).
Proof.
  cbv zeta. rewrite trained_eq.
  destruct (trainLoop_merges vocabSize 2000 0 (preprocessString corpus)
              (seedAlphabet (alphabet (VString corpus)) constructor))
    as (ms & Hm & Hv & Hall); [lia|].
  assert (Hseed : merges (seedAlphabet (alphabet (VString corpus)) constructor) = [])
    by apply seed_merges.
  rewrite Hseed in Hm. rewrite Hm. auto.
Qed.

(** Whatever the merges, there are at least as many as entries added. *)
Lemma mergeRuleCount_lower corpus vocabSize :
  let t := trained corpus vocabSize in
  (getVocabSize t - Z.of_nat (length (alphabet (VString corpus)))
   <= Z.of_nat (length (merges t)))%Z.
Proof.
  intros t. destruct (trained_merges corpus vocabSize) as [Hv _]. fold t in Hv.
  unfold getVocabSize. rewrite Hv.
  pose proof (enter_all_size_le (List.map mergeToken (merges t))
                (vocab (seedAlphabet (alphabet (VString corpus)) constructor))) as H.
  rewrite seedAlphabet_size, length_map in H. lia.
Qed.

(** C5 (amended): after [trainFromText] on a new tokenizer, if the tokens
    of the recorded merges are pairwise distinct, the number of recorded
    merges equals [getVocabSize()] minus the number of characters of the
    alphabet; the special tokens are not counted by [getVocabSize] and are
    not subtracted. *)
Theorem mergeRuleCount_distinct corpus vocabSize :
  let t := trained corpus vocabSize in
  NoDup (List.map mergeToken (merges t)) ->
  Z.of_nat (length (merges t))
  = (getVocabSize t - Z.of_nat (length (alphabet (VString corpus))))%Z.
Proof.
  intros t Hnd. destruct (trained_merges corpus vocabSize) as [Hv Hall]. fold t in Hv, Hall.
  unfold getVocabSize. rewrite Hv, enter_all_size, seedAlphabet_size, length_map; [lia|exact Hnd|].
  intros tok Hin. apply eq_None_not_Some. intros Hsome.
  apply (seed_lookup (alphabet (VString corpus)) 0 constructor tok) in Hsome.
  apply list_elem_of_In, in_map_iff in Hin as (bestPair & <- & Hin).
  rewrite Forall_forall in Hall. apply list_elem_of_In in Hin. specialize (Hall _ Hin).
  destruct Hsome as [Hsome|(c & _ & Hc)].
  - rewrite constructor_vocab, lookup_empty in Hsome. now destruct Hsome.
  - rewrite Hc in Hall. discriminate Hall.
Qed.

Lemma mergeRuleCount_distinct_witness :
  merges (trained (str "$$ab") 23) = [[str "$"; str "$"]; [str "$"; str "a"]] /\
  Z.of_nat (length (merges (trained (str "$$ab") 23)))
  = (getVocabSize (trained (str "$$ab") 23)
     - Z.of_nat (length (alphabet (VString (str "$$ab")))))%Z.
Proof.
  split; [vm_compute; reflexivity|].
  apply (mergeRuleCount_distinct (str "$$ab") 23).
  vm_compute. apply NoDup_cons. split; [|apply NoDup_singleton].
  intros H. apply list_elem_of_singleton in H. discriminate H.
Defined.

(** ** C7 *)

(** C7, counterexample: with target size 5 the empty corpus already leaves
    the 17 seed characters in the vocabulary. *)
Lemma boundedGrowth_counterexample :
  getVocabSize (trained [] 5) = 17%Z /\ ~ boundedGrowth_claim [] 5.
Proof. split; [vm_compute; reflexivity|]. unfold boundedGrowth_claim. vm_compute. auto. Qed.

(** C7 (amended): after [trainFromText(corpus, vocabSize)], on any
    tokenizer and whether or not the call returns, [getVocabSize()] is at
    most the greater of [vocabSize] and the size of the vocabulary right
    after the alphabet was seeded; on a new tokenizer that size is the
    number of distinct characters of the corpus and the seed. *)
Theorem vocabulary_growth_bounded (corpus : value) (vocabSize : Z) (t : CustomTokenizer) :
  (getVocabSize (state_of (trainFromText corpus vocabSize t))
   <= Z.max vocabSize (getVocabSize (seedAlphabet (alphabet corpus) t)))%Z
  /\ getVocabSize (seedAlphabet (alphabet corpus) constructor)
     = Z.of_nat (length (alphabet corpus)).
Proof.
  split.
  - unfold trainFromText. destruct (preprocessText corpus) as [e|words];
      cbn [state_of]; [lia|].
    apply trainLoop_size. lia.
  - unfold getVocabSize. now rewrite seedAlphabet_size.
Qed.

(** ** C8 *)

(** A corpus that is not a string makes [trainFromText] raise, after the
    alphabet has been seeded from its text. *)
Lemma trainFromText_not_string corpus vocabSize t :
  (forall s, corpus <> VString s) ->
  trainFromText corpus vocabSize t
  = Threw TypeError (seedAlphabet (alphabet corpus) t).
Proof.
  intros H. unfold trainFromText.
  destruct corpus; try reflexivity. now destruct (H s).
Qed.

(** C8 (the code at the failing input): [trainFromText(null)] and
    [trainFromText(undefined)] raise a TypeError, in [preprocessText]; by
    then the vocabulary of a new tokenizer holds the characters of
    ["null"], resp. ["undefined"], and the seed. *)
Theorem trainFromText_null_throws :
  trainFromText VNull defaultVocabSize constructor
  = Threw TypeError (seedAlphabet (alphabet VNull) constructor) /\
  trainFromText VUndefined defaultVocabSize constructor
  = Threw TypeError (seedAlphabet (alphabet VUndefined) constructor) /\
  getVocabSize (state_of (trainFromText VNull defaultVocabSize constructor)) = 20%Z /\
  getVocabSize (state_of (trainFromText VUndefined defaultVocabSize constructor)) = 23%Z /\
  getVocabSize (trained [] defaultVocabSize) = 17%Z.
Proof. repeat split; vm_compute; reflexivity. Qed.

(** ** C9 *)

(** C9: two runs of [trainFromText] on new tokenizers with the same corpus
    and the same target size end with the same vocabulary, the same
    decoder and the same merges. *)
Theorem training_deterministic corpus vocabSize o1 o2 :
  trainRuns corpus vocabSize constructor o1 ->
  trainRuns corpus vocabSize constructor o2 ->
  vocab (state_of o1) = vocab (state_of o2) /\
  decoder (state_of o1) = decoder (state_of o2) /\
  merges (state_of o1) = merges (state_of o2).
Proof.
  intros H1 H2. now rewrite (trainRuns_deterministic _ _ _ _ _ H1 H2).
Qed.

Lemma training_deterministic_witness :
  let o := trainFromText (VString (str "ab ab ab ac")) defaultVocabSize constructor in
  vocab (state_of o) = vocab (state_of o) /\
  decoder (state_of o) = decoder (state_of o) /\
  merges (state_of o) = merges (state_of o).
Proof.
  apply (training_deterministic (VString (str "ab ab ab ac")) defaultVocabSize);
    apply trainFromText_runs.
Defined.

(** ** C10 *)

Lemma short_keys_train corpus vocabSize t :
  short_keys t -> short_keys (state_of (trainFromText corpus vocabSize t)).
Proof.
  intros Ht.
  assert (Hseed : short_keys (seedAlphabet (alphabet corpus) t)).
  { intros k Hk. apply seed_lookup in Hk as [Hk|(c & _ & ->)]; [auto|simpl; lia]. }
  unfold trainFromText. destruct (preprocessText corpus) as [e|words];
    cbn [state_of]; [exact Hseed|].
  apply trainLoop_invariant; [|lia|exact Hseed].
  intros t' words' bestPair Ht' _ Hbest k Hk. simpl in Hk.
  apply lookup_insert_is_Some in Hk as [<-|[_ Hk]]; [|auto].
  fold (mergeToken bestPair). erewrite mergeToken_length; eauto.
Qed.

Lemma short_keys_trainAll runs : short_keys (trainAll runs).
Proof.
  unfold trainAll. induction runs as [|[corpus vocabSize] runs IH] using rev_ind.
  - intros k Hk. cbn [foldl] in Hk. rewrite constructor_vocab, lookup_empty in Hk.
    now destruct Hk.
  - rewrite foldl_app. cbn [foldl fst snd]. now apply short_keys_train.
Qed.

(** C10: on a new tokenizer [getVocabSize()] is 0 although [decode] and
    [getTokenText] resolve the ids 0 to 3 to the four special tokens; and
    after any number of calls of [trainFromText] no special token is a key
    of the vocabulary, whose entries are what [getVocabSize()] counts. *)
Theorem getVocabSize_excludes_specials :
  getVocabSize constructor = 0%Z /\
  List.map (fun id => getTokenText id constructor) [0; 1; 2; 3]%Z = specials /\
  decode [0; 1; 2; 3]%Z constructor = concat specials /\
  forall runs,
    getVocabSize (trainAll runs) = Z.of_nat (size (vocab (trainAll runs))) /\
    Forall (fun special => vocab (trainAll runs) !! special = None) specials.
Proof.
  split; [reflexivity|]. split; [vm_compute; reflexivity|].
  split; [vm_compute; reflexivity|].
  intros runs. split; [reflexivity|].
  assert (Hlong : Forall (fun special : jsstring => 2 < length special) specials)
    by (vm_compute; repeat constructor).
  eapply Forall_impl; [exact Hlong|]. intros special Hlen.
  apply eq_None_not_Some. intros Hsome.
  apply short_keys_trainAll in Hsome. cbv beta in Hlen. lia.
Qed.

(** ** Further facts about the methods *)

(** *** [preprocessText] *)

Module TextFacts.
Import JS Tokenizer.

Lemma is_space_32 c : is_space c = false -> (32 =? c)%N = false.
Proof.
  intros H. destruct (N.eqb_spec 32 c) as [<-|_]; [discriminate H|reflexivity].
Qed.

(** After the runs of white space are replaced, the only white space left
    is the space that replaced them. *)
Lemma collapse_spaces_chars in_run s :
  Forall (fun c => c = 32%N \/ is_space c = false) (collapse_spaces in_run s).
Proof.
  revert in_run. induction s as [|c r IH]; intros in_run; simpl; [constructor|].
  destruct (is_space c) eqn:Hc.
  - destruct in_run; [apply IH|]. constructor; [now left|apply IH].
  - constructor; [now right|apply IH].
Qed.

Lemma collapse_spaces_filter in_run s :
  List.filter (fun c => negb (32 =? c)%N) (collapse_spaces in_run s)
  = List.filter (fun c => negb (is_space c)) s.
Proof.
  revert in_run.
  induction s as [|c r IH]; intros in_run; cbn [collapse_spaces List.filter];
    [reflexivity|].
  destruct (is_space c) eqn:Hc; cbn [negb].
  - destruct in_run; cbn [List.filter]; rewrite ?N.eqb_refl; cbn [negb]; apply IH.
  - cbn [List.filter]. rewrite (is_space_32 c Hc). cbn [negb]. now rewrite IH.
Qed.

(** Splitting on one character. *)
Lemma split_char_step x cur c r :
  split_go [x] cur 0 (c :: r)
  = if (x =? c)%N then rev cur :: split_go [x] [] 0 r
    else split_go [x] (c :: cur) 0 r.
Proof. simpl. now destruct (x =? c)%N. Qed.

Lemma split_char_pieces (P : N -> Prop) x cur s :
  Forall P cur -> Forall (fun c => c = x \/ P c) s ->
  Forall (Forall P) (split_go [x] cur 0 s).
Proof.
  revert cur. induction s as [|c r IH]; intros cur Hcur Hs.
  - simpl. constructor; [|constructor]. now apply Forall_rev.
  - rewrite split_char_step. apply Forall_cons in Hs as [Hc Hr].
    destruct (N.eqb_spec x c) as [->|Hne].
    + constructor; [now apply Forall_rev|]. apply IH; [constructor|exact Hr].
    + apply IH; [|exact Hr]. constructor; [|exact Hcur].
      destruct Hc as [->|Hc]; [contradiction|exact Hc].
Qed.

Lemma split_char_concat x cur s :
  concat (split_go [x] cur 0 s)
  = rev cur ++ List.filter (fun c => negb (x =? c)%N) s.
Proof.
  revert cur. induction s as [|c r IH]; intros cur.
  - simpl. now rewrite !app_nil_r.
  - rewrite split_char_step. simpl. destruct (x =? c)%N; simpl.
    + now rewrite IH.
    + rewrite IH. simpl. now rewrite <- app_assoc.
Qed.

Lemma drop_spaces_clean w :
  Forall (fun c => is_space c = false) w -> drop_spaces w = w.
Proof. destruct 1 as [|c r Hc _]; simpl; [reflexivity|]. now rewrite Hc. Qed.

Lemma trim_clean w : Forall (fun c => is_space c = false) w -> trim w = w.
Proof.
  intros H. unfold trim. rewrite (drop_spaces_clean w H).
  rewrite drop_spaces_clean by now apply Forall_rev.
  apply rev_involutive.
Qed.

(** The pieces of the corpus between the spaces. *)
Lemma pieces_clean corpus :
  Forall (Forall (fun c => is_space c = false))
         (split [32%N] (collapse_spaces false corpus)).
Proof.
  apply split_char_pieces; [constructor|].
  eapply Forall_impl; [apply collapse_spaces_chars|]. intros c [->|Hc]; auto.
Qed.

Lemma keep_words_concat pieces :
  Forall (Forall (fun c => is_space c = false)) pieces ->
  concat (List.filter (fun word => (0 <? Z.of_nat (length (trim word)))%Z) pieces)
  = concat pieces.
Proof.
  induction 1 as [|w pieces Hw _ IH]; simpl; [reflexivity|].
  rewrite (trim_clean w Hw). destruct w as [|c w]; simpl; [exact IH|].
  now rewrite IH.
Qed.

Lemma preprocessString_concat corpus :
  concat (preprocessString corpus)
  = List.filter (fun c => negb (is_space c)) corpus.
Proof.
  unfold preprocessString.
  rewrite keep_words_concat by apply pieces_clean.
  unfold split. rewrite split_char_concat. simpl.
  apply collapse_spaces_filter.
Qed.

End TextFacts.

(** *** The tables after seeding and training *)

Module StateFacts.
Import JS JSFacts Tokenizer PairFacts TrainFacts.

Lemma size_keys_le (keys : list jsstring) (m : gmap jsstring Z) :
  NoDup keys -> (forall k, k ∈ keys -> is_Some (m !! k)) -> length keys <= size m.
Proof.
  intros Hnd Hin.
  rewrite <- (size_list_to_set (C:=gset jsstring) keys) by exact Hnd.
  rewrite <- (size_dom (D:=gset jsstring) m). apply subseteq_size.
  intros k Hk. apply elem_of_list_to_set in Hk. apply elem_of_dom. auto.
Qed.

Lemma insert_size_ge (m : gmap jsstring Z) k v : size m <= size (<[k:=v]> m).
Proof. rewrite map_size_insert. destruct (m !! k); simpl; lia. Qed.

(** Seeding writes the decoder at the ids from
    [specialTokens.size + idx] on only. *)
Lemma seed_decoder_low chars idx t id :
  (id < Z.of_nat (size (specialTokens t)) + Z.of_nat idx)%Z ->
  decoder (forEach_from seedChar idx chars t) !! id = decoder t !! id.
Proof.
  revert idx t. induction chars as [|c chars IH]; intros idx t Hid; simpl; [reflexivity|].
  rewrite IH by (simpl; lia). simpl. apply lookup_insert_ne. lia.
Qed.

Lemma seed_decoder_exact chars idx t i c :
  chars !! i = Some c ->
  decoder (forEach_from seedChar idx chars t)
  !! (Z.of_nat (size (specialTokens t)) + Z.of_nat idx + Z.of_nat i)%Z = Some [c].
Proof.
  revert idx t i. induction chars as [|c0 chars IH]; intros idx t i Hi; [inversion Hi|].
  destruct i as [|i]; simpl in *.
  - injection Hi as ->. rewrite seed_decoder_low by (simpl; lia). simpl.
    rewrite Z.add_0_r. apply lookup_insert_eq.
  - specialize (IH (S idx) (seedChar c0 idx t) i Hi). simpl in IH.
    rewrite <- IH. f_equal. lia.
Qed.

Lemma seed_decoder_entries chars idx t id s :
  decoder (forEach_from seedChar idx chars t) !! id = Some s ->
  decoder t !! id = Some s \/
  ((Z.of_nat (size (specialTokens t)) + Z.of_nat idx <= id
    < Z.of_nat (size (specialTokens t)) + Z.of_nat idx + Z.of_nat (length chars))%Z
   /\ exists c, s = [c]).
Proof.
  revert idx t. induction chars as [|c chars IH]; intros idx t; simpl; [auto|].
  intros H. apply IH in H as [H|[Hid Hs]]; simpl in *.
  - apply lookup_insert_Some in H as [[<- <-]|[_ H]]; [|now left].
    right. split; [lia|eauto].
  - right. split; [lia|exact Hs].
Qed.

Lemma seed_vocab_other chars idx t k :
  (forall c, c ∈ chars -> k <> [c]) ->
  vocab (forEach_from seedChar idx chars t) !! k = vocab t !! k.
Proof.
  revert idx t. induction chars as [|c chars IH]; intros idx t Hk; simpl; [reflexivity|].
  rewrite IH by (intros c' Hc'; apply Hk; now apply list_elem_of_further).
  simpl. apply lookup_insert_ne. intros <-. apply (Hk c); [apply list_elem_of_here|reflexivity].
Qed.

Lemma seed_vocab_exact chars idx t i c :
  NoDup chars -> chars !! i = Some c ->
  vocab (forEach_from seedChar idx chars t) !! [c]
  = Some (Z.of_nat (size (specialTokens t)) + Z.of_nat idx + Z.of_nat i)%Z.
Proof.
  intros Hnd. revert idx t i.
  induction Hnd as [|c0 chars Hnot Hnd IH]; intros idx t i Hi; [inversion Hi|].
  destruct i as [|i]; simpl in *.
  - injection Hi as ->. rewrite seed_vocab_other.
    + simpl. rewrite Z.add_0_r. apply lookup_insert_eq.
    + intros c' Hc' [= ->]. contradiction.
  - specialize (IH (S idx) (seedChar c0 idx t) i Hi). simpl in IH.
    rewrite IH. f_equal. lia.
Qed.

Lemma seed_vocab_ids chars idx t k id :
  vocab (forEach_from seedChar idx chars t) !! k = Some id ->
  vocab t !! k = Some id \/
  (Z.of_nat (size (specialTokens t)) + Z.of_nat idx <= id)%Z.
Proof.
  revert idx t. induction chars as [|c chars IH]; intros idx t; simpl; [auto|].
  intros H. apply IH in H as [H|H]; simpl in *; [|right; lia].
  apply lookup_insert_Some in H as [[_ <-]|[_ H]]; [right; lia|now left].
Qed.

Lemma seed_size_mono chars idx t :
  size (vocab t) <= size (vocab (forEach_from seedChar idx chars t)).
Proof.
  revert idx t. induction chars as [|c chars IH]; intros idx t; simpl; [lia|].
  etransitivity; [|apply IH]. simpl. apply insert_size_ge.
Qed.

Lemma seed_size_ge chars idx t :
  NoDup chars -> length chars <= size (vocab (forEach_from seedChar idx chars t)).
Proof.
  intros Hnd.
  rewrite <- (length_fmap (fun c : N => [c]) chars).
  apply size_keys_le.
  - apply NoDup_fmap_2; [|exact Hnd]. intros a b [= ->]. reflexivity.
  - intros k Hk. apply list_elem_of_fmap in Hk as (c & -> & Hc).
    apply seed_lookup. right. eauto.
Qed.

(** *** The alphabet *)

Lemma alphabet_NoDup text : NoDup (alphabet text).
Proof. apply NoDup_uniq. Qed.

Lemma alphabet_elem text c : c ∈ alphabet text <-> c ∈ to_string text \/ c ∈ seed.
Proof. unfold alphabet. now rewrite elem_of_uniq, elem_of_app. Qed.

Lemma seed_NoDup : NoDup seed.
Proof. apply (bool_decide_unpack (NoDup seed)). vm_compute. exact I. Qed.

Lemma alphabet_length text : 17 <= length (alphabet text).
Proof.
  change 17 with (length seed). apply submseteq_length, NoDup_submseteq.
  - apply seed_NoDup.
  - intros c Hc. apply alphabet_elem. now right.
Qed.

(** *** What training keeps true *)

Lemma specialTokens_size : size (specialTokens constructor) = 4.
Proof. reflexivity. Qed.

Lemma constructor_decoder :
  decoder constructor
  = <[3%Z := str "<|space|>"]>
      (<[2%Z := unknown]>
         (<[1%Z := str "<|startoftext|>"]> (<[0%Z := str "<|endoftext|>"]> ∅))).
Proof. reflexivity. Qed.

Lemma constructor_well_formed : well_formed constructor.
Proof.
  split; [reflexivity|]. split; [reflexivity|]. split.
  - intros k id. rewrite constructor_vocab, lookup_empty. discriminate.
  - intros id s. rewrite constructor_decoder, constructor_vocab, map_size_empty.
    rewrite !lookup_insert_Some, lookup_empty.
    intros [[<- <-]|[_ [[<- <-]|[_ [[<- <-]|[_ [[<- <-]|[_ H]]]]]]]];
      try discriminate H; split; (lia || discriminate).
Qed.

Lemma seedAlphabet_well_formed text t :
  well_formed t ->
  well_formed (seedAlphabet (alphabet text) t) /\
  17 <= size (vocab (seedAlphabet (alphabet text) t)).
Proof.
  intros (Hsp & Hlow & Hids & Hdec). unfold seedAlphabet, forEach.
  assert (Hsize : 17 <= size (vocab (forEach_from seedChar 0 (alphabet text) t))).
  { etransitivity; [apply (alphabet_length text)|].
    apply seed_size_ge, alphabet_NoDup. }
  assert (Hsz : size (specialTokens t) = 4) by (rewrite Hsp; apply specialTokens_size).
  split; [|exact Hsize]. split; [|split; [|split]].
  - now rewrite seed_specialTokens.
  - intros id Hid. rewrite seed_decoder_low by lia. now apply Hlow.
  - intros k id H. apply seed_vocab_ids in H as [H|H]; [eauto|lia].
  - intros id s H. apply seed_decoder_entries in H as [H|[Hid [c ->]]].
    + apply Hdec in H as [Hid Hs]. split; [|exact Hs].
      pose proof (seed_size_mono (alphabet text) 0 t). lia.
    + split; [|discriminate].
      pose proof (seed_size_ge (alphabet text) 0 t (alphabet_NoDup text)). lia.
Qed.

Lemma recordMerge_well_formed words bestPair t :
  getBestPair (getPairs words) = Some bestPair ->
  well_formed t /\ 17 <= size (vocab t) ->
  well_formed (recordMerge bestPair t) /\ 17 <= size (vocab (recordMerge bestPair t)).
Proof.
  intros Hbest [(Hsp & Hlow & Hids & Hdec) Hsize].
  pose proof (insert_size_ge (vocab t) (mergeToken bestPair)
                (Z.of_nat (size (vocab t)))) as Hge.
  split; [|simpl; unfold mergeToken in Hge; lia].
  split; [exact Hsp|]. split; [|split]; simpl.
  - intros id Hid. rewrite lookup_insert_ne by lia. now apply Hlow.
  - intros k id H. apply lookup_insert_Some in H as [[_ <-]|[_ H]]; [lia|eauto].
  - intros id s H. unfold mergeToken in Hge.
    apply lookup_insert_Some in H as [[<- <-]|[_ H]].
    + split; [lia|]. intros Hnil.
      pose proof (mergeToken_length words bestPair Hbest) as Hlen.
      unfold mergeToken in Hlen. rewrite Hnil in Hlen. discriminate Hlen.
    + apply Hdec in H as [Hid Hs]. split; [lia|exact Hs].
Qed.

Lemma trainFromText_well_formed text vocabSize t :
  well_formed t -> well_formed (state_of (trainFromText text vocabSize t)).
Proof.
  intros Ht. apply (seedAlphabet_well_formed text) in Ht.
  unfold trainFromText. destruct (preprocessText text) as [e|words];
    cbn [state_of]; [apply Ht|].
  apply (trainLoop_invariant (fun t' => well_formed t' /\ 17 <= size (vocab t')));
    [|lia|exact Ht].
  intros t' words' bestPair Ht' _ Hbest. eauto using recordMerge_well_formed.
Qed.

Lemma trainAll_well_formed runs : well_formed (trainAll runs).
Proof.
  unfold trainAll. induction runs as [|[text vocabSize] runs IH] using rev_ind.
  - apply constructor_well_formed.
  - rewrite foldl_app. cbn [foldl fst snd]. now apply trainFromText_well_formed.
Qed.

End StateFacts.

(** *** The state after a call *)

Module CallFacts.
Import JS JSFacts Tokenizer PairFacts TrainFacts StateFacts.

Lemma encode_map text t :
  encode text t
  = List.map (fun char => or_number (vocab t !! [char])
                                    (or_number (specialTokens t !! unknown) 2))
             text.
Proof. now destruct text. Qed.

Lemma trainAll_snoc runs text vocabSize :
  trainAll (runs ++ [(text, vocabSize)])
  = state_of (trainFromText text vocabSize (trainAll runs)).
Proof. unfold trainAll. now rewrite foldl_app. Qed.

Lemma map_imap {A B} (f : A -> B) (g : nat -> A -> B) (l : list A) :
  (forall i x, l !! i = Some x -> f x = g i x) -> List.map f l = imap g l.
Proof.
  revert g. induction l as [|x l IH]; intros g H; simpl; [reflexivity|].
  rewrite (H 0 x eq_refl). f_equal. apply IH. intros i y Hi. apply (H (S i) y Hi).
Qed.

(** After a call, the characters of its alphabet have the ids 4, 5, ...
    in the vocabulary, and the decoder has them back at the ids below the
    size of the alphabet. *)
Lemma call_alphabet_ids text vocabSize t i c :
  well_formed t ->
  alphabet text !! i = Some c ->
  let t' := state_of (trainFromText text vocabSize t) in
  vocab t' !! [c] = Some (4 + Z.of_nat i)%Z /\
  (4 + i < length (alphabet text) ->
   decoder t' !! (4 + Z.of_nat i)%Z = Some [c]).
Proof.
  intros Ht Hi. cbv zeta.
  set (P := fun t' : CustomTokenizer =>
              (vocab t' !! [c] = Some (4 + Z.of_nat i)%Z /\
               (4 + i < length (alphabet text) ->
                decoder t' !! (4 + Z.of_nat i)%Z = Some [c])) /\
              length (alphabet text) <= size (vocab t')).
  assert (Hsz : Z.of_nat (size (specialTokens t)) = 4%Z).
  { destruct Ht as (-> & _). reflexivity. }
  assert (Hseed : P (seedAlphabet (alphabet text) t)).
  { unfold P, seedAlphabet, forEach. split; [split|].
    - rewrite (seed_vocab_exact _ 0 t i c (alphabet_NoDup text) Hi), Hsz.
      f_equal; lia.
    - intros _. rewrite <- (seed_decoder_exact _ 0 t i c Hi), Hsz. f_equal; lia.
    - apply seed_size_ge, alphabet_NoDup. }
  unfold trainFromText. destruct (preprocessText text) as [e|words];
    cbn [state_of]; [apply Hseed|].
  apply (trainLoop_invariant P); [|lia|exact Hseed].
  intros t' words' bestPair [[Hv Hd] Hsize] _ Hbest.
  pose proof (insert_size_ge (vocab t') (mergeToken bestPair)
                (Z.of_nat (size (vocab t')))) as Hge.
  unfold mergeToken in Hge.
  split; [split|]; simpl.
  - rewrite lookup_insert_ne; [exact Hv|]. intros Heq.
    pose proof (mergeToken_length words' bestPair Hbest) as Hlen.
    unfold mergeToken in Hlen. rewrite Heq in Hlen. discriminate Hlen.
  - intros Hlow. rewrite lookup_insert_ne by lia. auto.
  - lia.
Qed.

(** A run of the loop that leaves the merges as they were has made no
    round. *)
Lemma trainLoop_no_merge vocabSize fuel i words t :
  (0 <= i)%Z ->
  merges (trainLoop vocabSize fuel i words t) = merges t ->
  trainLoop vocabSize fuel i words t = t.
Proof.
  intros Hi. destruct fuel as [|fuel]; simpl; [reflexivity|].
  destruct (i <? Z.min 2000 (vocabSize - Z.of_nat (size (vocab t))))%Z; [|reflexivity].
  destruct (Z.of_nat (length (getPairs words)) =? 0)%Z; [reflexivity|].
  destruct (getBestPair (getPairs words)) as [bestPair|]; [|reflexivity].
  destruct (trainLoop_merges vocabSize fuel (i + 1) (mergePair words bestPair)
              (recordMerge bestPair t)) as (ms & -> & _); [lia|].
  simpl. intros H. apply (f_equal length) in H. rewrite !length_app in H.
  simpl in H. lia.
Qed.

Lemma call_no_merge text vocabSize t :
  merges (state_of (trainFromText text vocabSize t)) = merges t ->
  state_of (trainFromText text vocabSize t) = seedAlphabet (alphabet text) t.
Proof.
  unfold trainFromText. destruct (preprocessText text) as [e|words];
    cbn [state_of]; [reflexivity|].
  intros H. apply trainLoop_no_merge; [lia|].
  rewrite H. symmetry. apply seed_merges.
Qed.

Lemma roundtrip_chars t text :
  Forall (fun c => exists id, vocab t !! [c] = Some id /\ id <> 0%Z /\
                              decoder t !! id = Some [c]) text ->
  roundtrip t text.
Proof.
  unfold roundtrip, decode. rewrite encode_map.
  induction 1 as [|c text (id & Hv & Hid & Hd) _ IH]; [reflexivity|].
  cbn [List.map concat]. rewrite IH, Hv. simpl.
  destruct (Z.eqb_spec id 0); [contradiction|]. now rewrite Hd.
Qed.

Lemma encode_lookup runs text :
  encode text (trainAll runs)
  = List.map (fun char => default 2%Z (vocab (trainAll runs) !! [char])) text.
Proof.
  destruct (trainAll_well_formed runs) as (Hsp & _ & Hids & _).
  rewrite encode_map, Hsp. apply map_ext. intros c.
  destruct (vocab (trainAll runs) !! [c]) as [id|] eqn:Hc; [|reflexivity].
  apply Hids in Hc. simpl. destruct (Z.eqb_spec id 0); [lia|reflexivity].
Qed.

Lemma countPairs_short chars pairs : length chars <= 1 -> countPairs chars pairs = pairs.
Proof. destruct chars as [|a [|b rest]]; simpl; intros H; try reflexivity; lia. Qed.

Lemma getPairs_short words :
  Forall (fun word => length word <= 1) words -> getPairs words = [].
Proof.
  unfold getPairs. generalize (@nil (jsstring * Z)).
  induction 1 as [|w words Hw _ IH]; simpl; [reflexivity|].
  now rewrite countPairs_short.
Qed.

Lemma trainLoop_no_pairs vocabSize fuel i words t :
  getPairs words = [] -> trainLoop vocabSize fuel i words t = t.
Proof.
  intros H. destruct fuel as [|fuel]; simpl; [reflexivity|]. rewrite H. simpl.
  now destruct (i <? Z.min 2000 (vocabSize - Z.of_nat (size (vocab t))))%Z.
Qed.

End CallFacts.

(** *** Growth *)

Module GrowthFacts.
Import JS JSFacts Tokenizer PairFacts TrainFacts StateFacts.

Lemma enter_all_size_ge (tokens : list jsstring) (v : gmap jsstring Z) :
  size v <= size (foldl enter v tokens).
Proof.
  revert v. induction tokens as [|tok tokens IH]; intros v; simpl; [lia|].
  etransitivity; [|apply IH]. apply insert_size_ge.
Qed.

(** The loop removes no key and never shrinks the vocabulary. *)
Lemma trainLoop_vocab_mono vocabSize fuel i words t :
  (0 <= i)%Z ->
  (forall k, is_Some (vocab t !! k) ->
             is_Some (vocab (trainLoop vocabSize fuel i words t) !! k)) /\
  size (vocab t) <= size (vocab (trainLoop vocabSize fuel i words t)).
Proof.
  intros Hi.
  destruct (trainLoop_merges vocabSize fuel i words t Hi) as (ms & _ & -> & _).
  split; [|apply enter_all_size_ge].
  intros k Hk. apply enter_all_lookup. now left.
Qed.


End GrowthFacts.

(** *** Pairs and merges *)

Module MergeFacts.
Import JS JSFacts Tokenizer PairFacts TrainFacts StateFacts.

Lemma adjacentKeys_chars chars key :
  key ∈ adjacentKeys chars ->
  exists a b, key = [a] ++ separator ++ [b] /\ a ∈ chars /\ b ∈ chars.
Proof.
  induction chars as [|a [|b rest] IH]; try (intros H; now inversion H).
  change (adjacentKeys (a :: b :: rest))
    with (([a] ++ separator ++ [b]) :: adjacentKeys (b :: rest)).
  intros H. apply elem_of_cons in H as [->|H].
  - exists a, b. split; [reflexivity|]. split; [apply list_elem_of_here|].
    apply list_elem_of_further, list_elem_of_here.
  - destruct (IH H) as (a' & b' & -> & Ha & Hb).
    exists a', b'. split; [reflexivity|]. split; now apply list_elem_of_further.
Qed.

Lemma pairKeys_chars words key :
  key ∈ pairKeys words ->
  exists a b, key = [a] ++ separator ++ [b] /\ a ∈ concat words /\ b ∈ concat words.
Proof.
  unfold pairKeys. intros H.
  apply list_elem_of_In, in_flat_map in H as (w & Hw & H).
  apply list_elem_of_In in H.
  destruct (adjacentKeys_chars w key H) as (a & b & -> & Ha & Hb).
  exists a, b. split; [reflexivity|].
  split; apply list_elem_of_In, in_concat; exists w; split; auto;
    now apply list_elem_of_In.
Qed.


(** The selected pair comes from two adjacent characters of a word. *)
Lemma bestPair_chars words bestPair :
  getBestPair (getPairs words) = Some bestPair ->
  exists a b, a ∈ concat words /\ b ∈ concat words /\
              bestPair = split separator ([a] ++ separator ++ [b]).
Proof.
  unfold getBestPair.
  destruct (Z.of_nat (length (getPairs words)) =? 0)%Z; [discriminate|].
  destruct (scan_first_max (getPairs words))
    as [[-> _]|(before & key & count & after & Hsplit & -> & _)]; [discriminate|].
  simpl. intros [= <-].
  assert (Hin : (key, count) ∈ getPairs words).
  { rewrite Hsplit. apply elem_of_app. right. apply list_elem_of_here. }
  rewrite getPairs_tally in Hin. apply elem_of_tally in Hin as [Hin _].
  apply pairKeys_chars in Hin as (a & b & -> & Ha & Hb). eauto.
Qed.

(** When merging the selected pair leaves the words as they are, every
    further round selects and records the same pair, and the vocabulary
    gains its token once at most. *)
Lemma trainLoop_stuck vocabSize words bestPair :
  getBestPair (getPairs words) = Some bestPair ->
  mergePair words bestPair = words ->
  forall fuel i t,
    (exists k, merges (trainLoop vocabSize fuel i words t)
               = merges t ++ repeat bestPair k) /\
    size (vocab (trainLoop vocabSize fuel i words t)) <= S (size (vocab t)) /\
    (is_Some (vocab t !! mergeToken bestPair) ->
     size (vocab (trainLoop vocabSize fuel i words t)) = size (vocab t)).
Proof.
  intros Hbest Hsame. induction fuel as [|fuel IH]; intros i t; simpl.
  - split; [exists 0; now rewrite app_nil_r|]. split; [lia|reflexivity].
  - assert (Hstop : (exists k, merges t = merges t ++ repeat bestPair k) /\
                    size (vocab t) <= S (size (vocab t)) /\
                    (is_Some (vocab t !! mergeToken bestPair) ->
                     size (vocab t) = size (vocab t))).
    { split; [exists 0; now rewrite app_nil_r|]. split; [lia|reflexivity]. }
    destruct (i <? Z.min 2000 (vocabSize - Z.of_nat (size (vocab t))))%Z; [|exact Hstop].
    destruct (Z.of_nat (length (getPairs words)) =? 0)%Z; [exact Hstop|].
    rewrite Hbest, Hsame.
    destruct (IH (i + 1)%Z (recordMerge bestPair t)) as ([k Hk] & Hle & Heq).
    assert (Hin : is_Some (vocab (recordMerge bestPair t) !! mergeToken bestPair)).
    { simpl. unfold mergeToken. rewrite lookup_insert_eq. eauto. }
    specialize (Heq Hin).
    assert (Hrec : size (vocab (recordMerge bestPair t))
                   = match vocab t !! mergeToken bestPair with
                     | Some _ => size (vocab t)
                     | None => S (size (vocab t))
                     end).
    { simpl. unfold mergeToken. rewrite map_size_insert.
      now destruct (vocab t !! (item 0 bestPair ++ item 1 bestPair)). }
    split; [|split].
    + exists (S k). rewrite Hk. simpl. now rewrite <- app_assoc.
    + rewrite Heq, Hrec. destruct (vocab t !! mergeToken bestPair); lia.
    + intros [x Hx]. rewrite Heq, Hrec, Hx. reflexivity.
Qed.

Lemma trainLoop_no_best vocabSize fuel i words t :
  getBestPair (getPairs words) = None -> trainLoop vocabSize fuel i words t = t.
Proof.
  intros H. destruct fuel as [|fuel]; simpl; [reflexivity|]. rewrite H.
  destruct (i <? Z.min 2000 (vocabSize - Z.of_nat (size (vocab t))))%Z; [|reflexivity].
  now destruct (Z.of_nat (length (getPairs words)) =? 0)%Z.
Qed.

(** The words hold no character that the corpus does not hold. *)
Lemma words_chars corpus c : c ∈ concat (preprocessString corpus) -> c ∈ corpus.
Proof.
  rewrite TextFacts.preprocessString_concat. intros H.
  apply list_elem_of_In, filter_In in H as [H _]. now apply list_elem_of_In.
Qed.

(** In a corpus without a dollar sign, merging the selected pair changes
    no word. *)
Lemma mergePair_corpus_plain corpus bestPair :
  36%N ∉ corpus ->
  getBestPair (getPairs (preprocessString corpus)) = Some bestPair ->
  mergePair (preprocessString corpus) bestPair = preprocessString corpus.
Proof.
  intros Hplain Hbest. apply mergePair_plain.
  destruct (bestPair_chars _ _ Hbest) as (a & b & Ha & Hb & ->).
  destruct (split_key a b) as (l & r & -> & Hlr).
  unfold item. simpl. rewrite Hlr.
  apply words_chars in Ha, Hb.
  intros Hin. apply elem_of_cons in Hin as [Heq|Hin]; [now subst a|].
  apply list_elem_of_singleton in Hin. now subst b.
Qed.

Lemma trainLoop_unfold vocabSize fuel i words t :
  trainLoop vocabSize (S fuel) i words t
  = if (i <? Z.min 2000 (vocabSize - Z.of_nat (size (vocab t))))%Z then
      if (Z.of_nat (length (getPairs words)) =? 0)%Z then t
      else match getBestPair (getPairs words) with
           | None => t
           | Some bestPair =>
               trainLoop vocabSize fuel (i + 1)%Z (mergePair words bestPair)
                         (recordMerge bestPair t)
           end
    else t.
Proof. reflexivity. Qed.

Lemma bestPair_table_not_empty pairs bestPair :
  getBestPair pairs = Some bestPair -> (Z.of_nat (length pairs) =? 0)%Z = false.
Proof.
  unfold getBestPair. now destruct (Z.of_nat (length pairs) =? 0)%Z.
Qed.

(** Once the token of the repeated pair is in the vocabulary, whose size
    then stays the same, the loop runs as many rounds as its bound leaves. *)
Lemma trainLoop_stuck_count vocabSize words bestPair :
  getBestPair (getPairs words) = Some bestPair ->
  mergePair words bestPair = words ->
  forall fuel i t,
    is_Some (vocab t !! mergeToken bestPair) ->
    (0 <= i)%Z -> (2000 - i <= Z.of_nat fuel)%Z ->
    merges (trainLoop vocabSize fuel i words t)
    = merges t
      ++ repeat bestPair
           (Z.to_nat (Z.max 0 (Z.min 2000 (vocabSize - Z.of_nat (size (vocab t))) - i))).
Proof.
  intros Hbest Hsame. induction fuel as [|fuel IH]; intros i t Hin Hi Hfuel.
  - simpl. replace (Z.to_nat _) with 0 by lia. simpl. now rewrite app_nil_r.
  - rewrite trainLoop_unfold.
    destruct (Z.ltb_spec i (Z.min 2000 (vocabSize - Z.of_nat (size (vocab t)))))
      as [Hlt|Hge].
    + rewrite (bestPair_table_not_empty _ _ Hbest), Hbest, Hsame.
      assert (Hsize : size (vocab (recordMerge bestPair t)) = size (vocab t)).
      { destruct Hin as [x Hx]. simpl. fold (mergeToken bestPair).
        now rewrite map_size_insert, Hx. }
      rewrite IH; [|simpl; fold (mergeToken bestPair); rewrite lookup_insert_eq; eauto
                   |lia|lia].
      rewrite Hsize. simpl. rewrite <- app_assoc. simpl. f_equal.
      replace (Z.to_nat (Z.max 0 (Z.min 2000 (vocabSize - Z.of_nat (size (vocab t))) - i)))
        with (S (Z.to_nat (Z.max 0 (Z.min 2000 (vocabSize - Z.of_nat (size (vocab t)))
                                    - (i + 1)))))
        by lia.
      reflexivity.
    + replace (Z.to_nat _) with 0 by lia. simpl. now rewrite app_nil_r.
Qed.

End MergeFacts.

(** *** The tables hang together *)

Module LinkFacts.
Import JS JSFacts Tokenizer PairFacts TrainFacts StateFacts.

Lemma linked_merges_insert (v : gmap jsstring Z) k id ms :
  Forall (fun bestPair =>
            length bestPair = 2 /\ length (mergeToken bestPair) = 2 /\
            is_Some (v !! mergeToken bestPair)) ms ->
  Forall (fun bestPair =>
            length bestPair = 2 /\ length (mergeToken bestPair) = 2 /\
            is_Some (<[k:=id]> v !! mergeToken bestPair)) ms.
Proof.
  intros H. eapply Forall_impl; [exact H|].
  intros bestPair (H1 & H2 & H3). repeat split; auto.
  apply lookup_insert_is_Some. destruct (decide (k = mergeToken bestPair)); auto.
Qed.

Lemma seedChar_linked c idx t : linked t -> linked (seedChar c idx t).
Proof.
  intros [Hv Hm]. split; simpl.
  - intros k id H. apply lookup_insert_is_Some.
    apply lookup_insert_Some in H as [[_ <-]|[_ H]]; [now left|].
    destruct (decide (Z.of_nat (size (specialTokens t)) + Z.of_nat idx = id)%Z); eauto.
  - now apply linked_merges_insert.
Qed.

Lemma seed_linked chars idx t :
  linked t -> linked (forEach_from seedChar idx chars t).
Proof.
  revert idx t. induction chars as [|c chars IH]; intros idx t H; simpl; [exact H|].
  apply IH. now apply seedChar_linked.
Qed.

Lemma recordMerge_linked words bestPair t :
  getBestPair (getPairs words) = Some bestPair ->
  linked t -> linked (recordMerge bestPair t).
Proof.
  intros Hbest [Hv Hm]. split; simpl.
  - intros k id H. apply lookup_insert_is_Some.
    apply lookup_insert_Some in H as [[_ <-]|[_ H]]; [now left|].
    destruct (decide (Z.of_nat (size (vocab t)) = id)); eauto.
  - apply Forall_app. split; [now apply linked_merges_insert|].
    constructor; [|constructor].
    pose proof (mergeToken_length words bestPair Hbest) as Hlen.
    destruct (getPairs_split words bestPair Hbest) as (l & r & a & b & -> & _).
    repeat split; auto. fold (mergeToken [l; r]). rewrite lookup_insert_eq. eauto.
Qed.

Lemma trainFromText_linked text vocabSize t :
  linked t -> linked (state_of (trainFromText text vocabSize t)).
Proof.
  intros Ht. apply (seed_linked (alphabet text) 0) in Ht.
  unfold trainFromText. destruct (preprocessText text) as [e|words];
    cbn [state_of]; [exact Ht|].
  apply trainLoop_invariant; [|lia|exact Ht].
  intros t' words' bestPair Ht' _ Hbest. eauto using recordMerge_linked.
Qed.

Lemma trainAll_linked runs : linked (trainAll runs).
Proof.
  unfold trainAll. induction runs as [|[text vocabSize] runs IH] using rev_ind.
  - cbn [foldl]. split; [|constructor].
    intros k id. rewrite constructor_vocab, lookup_empty. discriminate.
  - rewrite foldl_app. cbn [foldl fst snd]. now apply trainFromText_linked.
Qed.

End LinkFacts.

(** ** Further properties of the methods *)

(** The words that [preprocessText] returns are not empty and hold no
    white space. *)
Theorem preprocessText_words_clean (corpus : jsstring) :
  Forall (fun word => word <> [] /\ Forall (fun c => is_space c = false) word)
         (preprocessString corpus).
Proof.
  unfold preprocessString. apply Forall_forall. intros word Hin.
  apply list_elem_of_In, filter_In in Hin as [Hin Hkeep].
  split.
  - intros ->. discriminate Hkeep.
  - pose proof (TextFacts.pieces_clean corpus) as H.
    rewrite Forall_forall in H. apply H. now apply list_elem_of_In.
Qed.

(** [preprocessText] loses no character but white space: its words, put
    together, are the corpus without its white space. *)
Theorem preprocessText_keeps_characters (corpus : jsstring) :
  concat (preprocessString corpus)
  = List.filter (fun c => negb (is_space c)) corpus.
Proof. apply TextFacts.preprocessString_concat. Qed.

(** Whatever calls of [trainFromText] were made, with whatever arguments,
    the special tokens keep their ids: [specialTokens] is as the
    constructor left it and the ids 0 to 3 still decode to the four
    special tokens. *)
Theorem special_tokens_kept (runs : list (value * Z)) :
  specialTokens (trainAll runs) = specialTokens constructor /\
  List.map (fun id => getTokenText id (trainAll runs)) [0; 1; 2; 3]%Z = specials /\
  decode [0; 1; 2; 3]%Z (trainAll runs) = concat specials.
Proof.
  destruct (StateFacts.trainAll_well_formed runs) as (Hsp & Hlow & _).
  split; [exact Hsp|].
  unfold decode, getTokenText. cbn [List.map].
  rewrite !Hlow by lia. split; reflexivity.
Qed.

(** In every state that calls of [trainFromText] can reach, [encode]
    gives each character the id the vocabulary has for it, and 2, the id
    of the unknown token, if it has none. *)
Theorem encode_is_lookup (runs : list (value * Z)) (text : jsstring) :
  encode text (trainAll runs)
  = List.map (fun char => default 2%Z (vocab (trainAll runs) !! [char])) text.
Proof. apply CallFacts.encode_lookup. Qed.

(** An id that is negative, or not below [4 + getVocabSize()], is never
    in the decoder: [getTokenText] and [decode] give the unknown token. *)
Theorem decode_out_of_range (runs : list (value * Z)) (id : Z) :
  (id < 0 \/ 4 + getVocabSize (trainAll runs) <= id)%Z ->
  getTokenText id (trainAll runs) = unknown /\
  decode [id] (trainAll runs) = unknown.
Proof.
  intros Hid.
  destruct (StateFacts.trainAll_well_formed runs) as (_ & _ & _ & Hdec).
  assert (Hnone : decoder (trainAll runs) !! id = None).
  { apply eq_None_not_Some. intros [s Hs]. apply Hdec in Hs as [Hs _].
    unfold getVocabSize in Hid. lia. }
  unfold getTokenText, decode. cbn [List.map concat]. rewrite Hnone.
  split; [reflexivity|]. apply app_nil_r.
Qed.

Lemma decode_out_of_range_witness :
  getTokenText 9999999 (trainAll [(VString (str "ab ab ab ac"), defaultVocabSize)])
  = unknown /\
  decode [9999999%Z] (trainAll [(VString (str "ab ab ab ac"), defaultVocabSize)])
  = unknown.
Proof.
  apply (decode_out_of_range [(VString (str "ab ab ab ac"), defaultVocabSize)] 9999999).
  right. vm_compute. intros H. discriminate H.
Defined.

(** After a call of [trainFromText], whatever the calls before it, the
    characters of its alphabet (the distinct characters of the corpus and
    of the seed, in the order of first occurrence) are encoded as 4, 5, 6,
    and so on. *)
Theorem encode_alphabet (runs : list (value * Z)) (corpus : value) (vocabSize : Z) :
  encode (alphabet corpus) (trainAll (runs ++ [(corpus, vocabSize)]))
  = imap (fun i _ => (4 + Z.of_nat i)%Z) (alphabet corpus).
Proof.
  rewrite CallFacts.encode_lookup. apply CallFacts.map_imap. intros i c Hi.
  rewrite CallFacts.trainAll_snoc.
  destruct (CallFacts.call_alphabet_ids corpus vocabSize (trainAll runs) i c
              (StateFacts.trainAll_well_formed runs) Hi) as [-> _].
  reflexivity.
Qed.

(** The round trip holds, after any call of [trainFromText], for every
    text made of the characters of the alphabet other than its last four:
    their ids are below the size of the alphabet, where no merge writes. *)
Theorem roundtrip_below_merge_ids
        (runs : list (value * Z)) (corpus : value) (vocabSize : Z) (text : jsstring) :
  Forall (fun c => c ∈ take (length (alphabet corpus) - 4) (alphabet corpus)) text ->
  roundtrip (trainAll (runs ++ [(corpus, vocabSize)])) text.
Proof.
  intros Htext. apply CallFacts.roundtrip_chars.
  eapply Forall_impl; [exact Htext|]. intros c Hc.
  apply elem_of_take in Hc as (i & Hi & Hlt).
  rewrite CallFacts.trainAll_snoc.
  destruct (CallFacts.call_alphabet_ids corpus vocabSize (trainAll runs) i c
              (StateFacts.trainAll_well_formed runs) Hi) as [Hv Hd].
  exists (4 + Z.of_nat i)%Z. split; [exact Hv|]. split; [lia|]. apply Hd. lia.
Qed.

Lemma roundtrip_below_merge_ids_witness :
  roundtrip (trainAll ([] ++ [(VString (str "ab ab ab ac"), defaultVocabSize)]))
            (str "a cab (!) #").
Proof.
  apply (roundtrip_below_merge_ids [] (VString (str "ab ab ab ac")) defaultVocabSize).
  apply (bool_decide_unpack
           (Forall (fun c => c ∈ take (length (alphabet (VString (str "ab ab ab ac"))) - 4)
                                      (alphabet (VString (str "ab ab ab ac"))))
                   (str "a cab (!) #"))).
  vm_compute. exact I.
Defined.

(** If a call of [trainFromText] records no merge, the round trip holds
    afterwards for every text made of characters of its alphabet. *)
Theorem roundtrip_without_merge
        (runs : list (value * Z)) (corpus : value) (vocabSize : Z) (text : jsstring) :
  merges (trainAll (runs ++ [(corpus, vocabSize)])) = merges (trainAll runs) ->
  Forall (fun c => c ∈ alphabet corpus) text ->
  roundtrip (trainAll (runs ++ [(corpus, vocabSize)])) text.
Proof.
  rewrite CallFacts.trainAll_snoc. intros Hm Htext.
  rewrite (CallFacts.call_no_merge _ _ _ Hm).
  destruct (StateFacts.trainAll_well_formed runs) as (Hsp & _).
  assert (Hsz : Z.of_nat (size (specialTokens (trainAll runs))) = 4%Z)
    by (rewrite Hsp; reflexivity).
  apply CallFacts.roundtrip_chars.
  eapply Forall_impl; [exact Htext|]. intros c Hc.
  apply list_elem_of_lookup in Hc as [i Hi].
  exists (4 + Z.of_nat i)%Z. unfold seedAlphabet, forEach. split; [|split; [lia|]].
  - rewrite (StateFacts.seed_vocab_exact _ 0 _ i c (StateFacts.alphabet_NoDup corpus) Hi), Hsz.
    f_equal; lia.
  - rewrite <- (StateFacts.seed_decoder_exact _ 0 (trainAll runs) i c Hi), Hsz.
    f_equal; lia.
Qed.

Lemma roundtrip_without_merge_witness :
  roundtrip (trainAll ([] ++ [(VString (str "a b c"), defaultVocabSize)]))
            (str "c b a {[]}").
Proof.
  apply (roundtrip_without_merge [] (VString (str "a b c")) defaultVocabSize).
  - vm_compute. reflexivity.
  - apply (bool_decide_unpack
             (Forall (fun c => c ∈ alphabet (VString (str "a b c"))) (str "c b a {[]}"))).
    vm_compute. exact I.
Defined.

(** A corpus whose words have one character each (an empty corpus has no
    word) only seeds the alphabet: no merge is recorded and nothing but the
    characters is entered in the tables. *)
Theorem single_character_words_only_seed
        (runs : list (value * Z)) (corpus : jsstring) (vocabSize : Z) :
  Forall (fun word => length word <= 1) (preprocessString corpus) ->
  trainAll (runs ++ [(VString corpus, vocabSize)])
  = seedAlphabet (alphabet (VString corpus)) (trainAll runs).
Proof.
  intros H. rewrite CallFacts.trainAll_snoc. unfold trainFromText.
  cbn [preprocessText state_of]. apply CallFacts.trainLoop_no_pairs. now apply CallFacts.getPairs_short.
Qed.

Lemma single_character_words_only_seed_witness :
  trainAll ([] ++ [(VString (str " a  b c "), defaultVocabSize)])
  = seedAlphabet (alphabet (VString (str " a  b c "))) (trainAll []).
Proof.
  apply (single_character_words_only_seed [] (str " a  b c ") defaultVocabSize).
  vm_compute. repeat constructor.
Defined.


(** A call of [trainFromText] removes no key from the vocabulary, which
    never shrinks, and afterwards the vocabulary holds every character of
    the seed, so that [getVocabSize()] is at least 17. *)
Theorem vocabulary_only_grows (corpus : value) (vocabSize : Z) (t : CustomTokenizer) :
  let t' := state_of (trainFromText corpus vocabSize t) in
  (forall k, is_Some (vocab t !! k) -> is_Some (vocab t' !! k)) /\
  (getVocabSize t <= getVocabSize t')%Z /\
  Forall (fun c => is_Some (vocab t' !! [c])) seed /\
  (17 <= getVocabSize t')%Z.
Proof.
  cbv zeta.
  assert (Hloop : forall k,
             is_Some (vocab (seedAlphabet (alphabet corpus) t) !! k) ->
             is_Some (vocab (state_of (trainFromText corpus vocabSize t)) !! k)).
  { unfold trainFromText. destruct (preprocessText corpus) as [e|words];
      cbn [state_of]; [auto|].
    apply GrowthFacts.trainLoop_vocab_mono. lia. }
  assert (Hsize : size (vocab (seedAlphabet (alphabet corpus) t))
                  <= size (vocab (state_of (trainFromText corpus vocabSize t)))).
  { unfold trainFromText. destruct (preprocessText corpus) as [e|words];
      cbn [state_of]; [lia|].
    apply GrowthFacts.trainLoop_vocab_mono. lia. }
  pose proof (StateFacts.seed_size_mono (alphabet corpus) 0 t) as Hmono.
  pose proof (StateFacts.seed_size_ge (alphabet corpus) 0 t
                (StateFacts.alphabet_NoDup corpus)) as Hge.
  pose proof (StateFacts.alphabet_length corpus) as Hlen.
  unfold seedAlphabet, forEach in Hloop, Hsize.
  unfold getVocabSize. split; [|split; [lia|split; [|lia]]].
  - intros k Hk. apply Hloop, TrainFacts.seed_lookup. now left.
  - apply Forall_forall. intros c Hc. apply Hloop, TrainFacts.seed_lookup.
    right. exists c. split; [|reflexivity].
    apply StateFacts.alphabet_elem. now right.
Qed.



(** Training a new tokenizer on a corpus without a dollar sign records the
    same pair in every round, the one selected first, and enters one merge
    token at most in the vocabulary. *)
Theorem training_repeats_first_merge (corpus : jsstring) (vocabSize : Z) :
  36%N ∉ corpus ->
  Forall (fun bestPair =>
            getBestPair (getPairs (preprocessString corpus)) = Some bestPair)
         (merges (trained corpus vocabSize)) /\
  (getVocabSize (trained corpus vocabSize)
   <= Z.of_nat (length (alphabet (VString corpus))) + 1)%Z.
Proof.
  intros Hplain. rewrite trained_eq.
  set (words := preprocessString corpus).
  set (seeded := seedAlphabet (alphabet (VString corpus)) constructor).
  assert (Hseeded : size (vocab seeded) = length (alphabet (VString corpus)))
    by apply TrainFacts.seedAlphabet_size.
  assert (Hmerges : merges seeded = []) by apply TrainFacts.seed_merges.
  destruct (getBestPair (getPairs words)) as [bestPair|] eqn:Hbest.
  - assert (Hsame : mergePair words bestPair = words).
    { apply TrainFacts.mergePair_plain.
      destruct (MergeFacts.bestPair_chars words bestPair Hbest) as (a & b & Ha & Hb & ->).
      destruct (TrainFacts.split_key a b) as (l & r & -> & Hlr).
      unfold item. simpl. rewrite Hlr.
      apply MergeFacts.words_chars in Ha, Hb.
      intros Hin. apply elem_of_cons in Hin as [Heq|Hin]; [now subst a|].
      apply list_elem_of_singleton in Hin. now subst b. }
    destruct (MergeFacts.trainLoop_stuck vocabSize words bestPair Hbest Hsame 2000 0%Z seeded)
      as ([k Hk] & Hle & _).
    split.
    + rewrite Hk, Hmerges. simpl. apply Forall_forall. intros x Hx.
      apply list_elem_of_In, repeat_spec in Hx. now subst.
    + unfold getVocabSize. lia.
  - rewrite (MergeFacts.trainLoop_no_best vocabSize 2000 0%Z words seeded Hbest), Hmerges.
    split; [constructor|]. unfold getVocabSize. lia.
Qed.

Lemma training_repeats_first_merge_witness :
  Forall (fun bestPair =>
            getBestPair (getPairs (preprocessString (str "ab ab ab ac")))
            = Some bestPair)
         (merges (trained (str "ab ab ab ac") 30)) /\
  (getVocabSize (trained (str "ab ab ab ac") 30)
   <= Z.of_nat (length (alphabet (VString (str "ab ab ab ac")))) + 1)%Z.
Proof.
  apply (training_repeats_first_merge (str "ab ab ab ac") 30).
  apply (bool_decide_unpack (36%N ∉ str "ab ab ab ac")). vm_compute. exact I.
Defined.



(** The table of [getPairs] has one entry for each pair of characters that
    are adjacent within a word, with the number of places where they are;
    pairs across two words are not counted. *)
Theorem getPairs_counts (words : list jsstring) (key : jsstring) :
  get key (getPairs words)
  = (if (0 <? occurrences key (pairKeys words))%Z
     then Some (occurrences key (pairKeys words)) else None) /\
  NoDup (List.map fst (getPairs words)).
Proof.
  rewrite getPairs_tally. split.
  - rewrite get_tabulate.
    destruct (decide (key ∈ uniq (pairKeys words))) as [Hin|Hin];
      rewrite elem_of_uniq in Hin.
    + apply occurrences_pos in Hin.
      destruct (Z.ltb_spec 0 (occurrences key (pairKeys words))); [reflexivity|lia].
    + now rewrite occurrences_absent.
  - rewrite map_map. simpl. rewrite map_id. apply NoDup_uniq.
Qed.

(** [getBestPair] returns [null] exactly for a table without a positive
    count, the empty table among them. *)
Theorem getBestPair_null_iff (pairs : list (jsstring * Z)) :
  getBestPair pairs = None <-> forall k c, (k, c) ∈ pairs -> (c <= 0)%Z.
Proof.
  unfold getBestPair.
  destruct (Z.eqb_spec (Z.of_nat (length pairs)) 0) as [Hlen|Hlen].
  - destruct pairs; [|simpl in Hlen; lia]. split; [|reflexivity].
    intros _ k c H. inversion H.
  - destruct (scan_first_max pairs)
      as [[-> Hall]|(before & key & count & after & -> & -> & Hpos & _)]; simpl.
    + split; auto.
    + split; [discriminate|]. intros H.
      specialize (H key count). rewrite elem_of_app, elem_of_cons in H.
      specialize (H ltac:(auto)). lia.
Qed.


(** In every state that calls of [trainFromText] can reach, each recorded
    merge is an array of two strings whose token has two characters and is
    a key of the vocabulary. *)
Theorem merges_are_vocabulary_entries (runs : list (value * Z)) :
  Forall (fun bestPair =>
            length bestPair = 2 /\ length (mergeToken bestPair) = 2 /\
            is_Some (vocab (trainAll runs) !! mergeToken bestPair))
         (merges (trainAll runs)).
Proof. apply LinkFacts.trainAll_linked. Qed.

(** Every id that [encode] returns is in the decoder with a string that is
    not empty, and [getTokenText] gives that string: decoding what was
    encoded never meets a missing entry. *)
Theorem encoded_ids_decode (runs : list (value * Z)) (text : jsstring) :
  Forall (fun id => exists s, decoder (trainAll runs) !! id = Some s /\ s <> [] /\
                              getTokenText id (trainAll runs) = s)
         (encode text (trainAll runs)).
Proof.
  destruct (LinkFacts.trainAll_linked runs) as [Hlink _].
  destruct (StateFacts.trainAll_well_formed runs) as (Hsp & Hlow & _ & Hdec).
  assert (Hsome : forall id, is_Some (decoder (trainAll runs) !! id) ->
                             exists s, decoder (trainAll runs) !! id = Some s /\ s <> [] /\
                                       getTokenText id (trainAll runs) = s).
  { intros id [s Hs]. exists s. split; [exact Hs|].
    destruct (Hdec id s Hs) as [_ Hne]. split; [exact Hne|].
    unfold getTokenText. rewrite Hs. now destruct s. }
  rewrite CallFacts.encode_lookup. apply Forall_forall. intros id Hid.
  apply list_elem_of_In, in_map_iff in Hid as (c & <- & _).
  apply Hsome. destruct (vocab (trainAll runs) !! [c]) as [id|] eqn:Hc; simpl.
  - eauto.
  - rewrite (Hlow 2%Z) by lia. vm_compute. eauto.
Qed.

(** Training a new tokenizer on a corpus without a dollar sign, some word
    of which has two characters, records the pair selected first as often
    as the loop goes round: not at all if [vocabSize] does not exceed the
    size of the alphabet, and else once and then until the counter reaches
    [vocabSize] minus the size that the vocabulary has with the one merge
    token, or 2000. *)
Theorem merges_recorded_count (corpus : jsstring) (vocabSize : Z) (bestPair : list jsstring) :
  36%N ∉ corpus ->
  getBestPair (getPairs (preprocessString corpus)) = Some bestPair ->
  let alphabetSize := Z.of_nat (length (alphabet (VString corpus))) in
  merges (trained corpus vocabSize)
  = repeat bestPair
           (Z.to_nat (if (vocabSize <=? alphabetSize)%Z then 0
                      else Z.max 1 (Z.min 2000 (vocabSize - alphabetSize - 1)))).
Proof.
  intros Hplain Hbest alphabetSize. rewrite trained_eq.
  set (words := preprocessString corpus) in *.
  set (seeded := seedAlphabet (alphabet (VString corpus)) constructor).
  assert (Hseeded : Z.of_nat (size (vocab seeded)) = alphabetSize)
    by (unfold alphabetSize; f_equal; apply TrainFacts.seedAlphabet_size).
  assert (Hmerges : merges seeded = []) by apply TrainFacts.seed_merges.
  pose proof (MergeFacts.mergePair_corpus_plain corpus bestPair Hplain Hbest) as Hsame.
  fold words in Hsame.
  change 2000 with (S 1999). rewrite MergeFacts.trainLoop_unfold, Hseeded.
  destruct (Z.leb_spec vocabSize alphabetSize) as [Hle|Hgt].
  - destruct (Z.ltb_spec 0 (Z.min 2000 (vocabSize - alphabetSize))); [lia|]. exact Hmerges.
  - destruct (Z.ltb_spec 0 (Z.min 2000 (vocabSize - alphabetSize))); [|lia].
    rewrite (MergeFacts.bestPair_table_not_empty _ _ Hbest), Hbest, Hsame.
    assert (Hnew : vocab seeded !! mergeToken bestPair = None).
    { apply eq_None_not_Some. intros Hsome.
      apply (TrainFacts.seed_lookup (alphabet (VString corpus)) 0 constructor) in Hsome.
      pose proof (TrainFacts.mergeToken_length words bestPair Hbest) as Hlen.
      destruct Hsome as [Hsome|(c & _ & Hc)].
      - rewrite TrainFacts.constructor_vocab, lookup_empty in Hsome. now destruct Hsome.
      - rewrite Hc in Hlen. discriminate Hlen. }
    assert (Hsize1 : Z.of_nat (size (vocab (recordMerge bestPair seeded))) = (alphabetSize + 1)%Z).
    { simpl. fold (mergeToken bestPair).
      rewrite map_size_insert_None by exact Hnew. lia. }
    rewrite (MergeFacts.trainLoop_stuck_count vocabSize words bestPair Hbest Hsame);
      [|simpl; fold (mergeToken bestPair); rewrite lookup_insert_eq; eauto|lia|simpl; lia].
    rewrite Hsize1. simpl merges. rewrite Hmerges. simpl.
    replace (Z.to_nat (Z.max 1 (Z.min 2000 (vocabSize - alphabetSize - 1))))
      with (S (Z.to_nat (Z.max 0 (Z.min 2000 (vocabSize - (alphabetSize + 1)) - (0 + 1)))))
      by lia.
    reflexivity.
Qed.

Lemma merges_recorded_count_witness :
  merges (trained (str "ab ab ab ac") defaultVocabSize)
  = repeat [str "a"; str "b"] 2000.
Proof.
  apply (merges_recorded_count (str "ab ab ab ac") defaultVocabSize [str "a"; str "b"]).
  - apply (bool_decide_unpack (36%N ∉ str "ab ab ab ac")). vm_compute. exact I.
  - vm_compute. reflexivity.
Defined.
